(** * The EDI raw-segment reader of omniparser (package [edi])

    A shallow embedding of [NonValidatingReader] (its [Read] / [readToken]
    methods and the helpers they call) together with the properties the
    specification states about it.

    Conventions of the embedding:
    - a Go [[]byte] is a [list byte]; a nil slice that the code tells apart
      from an empty one ([RawSeg.Raw], the [token] variable of [Read]) is an
      [option];
    - a Go [string] is a [string]; the conversions [[]byte(s)] and
      [string(b)] are [list_byte_of_string] and [string_of_list_byte];
    - the [int] counters the reader keeps forever ([runeEnd], [segCount])
      are 64-bit: they are [Z] with the wrap-around of [wrap64] written at
      each increment; lengths and slice positions are [nat];
    - a Go [(value, error)] result is a pair whose second component is an
      [option]; a run-time panic is the outcome [Panicked];
    - what the process writes to its standard output is a list of lines. *)

From Stdlib Require Import Strings.String Strings.Byte.
From Stdlib Require Import List ZArith Lia Bool.
Import ListNotations.

Local Open Scope Z_scope.

Definition bytes := list byte.

Definition byteZ (b : byte) : Z := Z.of_N (Byte.to_N b).

(** The bytes of a string literal, [[]byte("...")]. *)
Definition bs (s : string) : bytes := list_byte_of_string s.

Fixpoint bytes_eqb (a b : bytes) : bool :=
  match a, b with
  | [], [] => true
  | x :: a', y :: b' => Byte.eqb x y && bytes_eqb a' b'
  | _, _ => false
  end.

(** 64-bit two's complement wrap-around of Go's [int]. *)
Definition wrap64 (z : Z) : Z := (z + 2 ^ 63) mod 2 ^ 64 - 2 ^ 63.

(** ** Package [unicode/utf8] (Go standard library) *)
Module Utf8.

Definition rune := Z.

Definition RuneError : rune := 0xFFFD.

Definition maskx := 0x3F.
Definition mask2 := 0x1F.
Definition mask3 := 0x0F.
Definition mask4 := 0x07.
Definition locb := 0x80.
Definition hicb := 0xBF.

Definition xx := 0xF1.
Definition as_ := 0xF0.
Definition s1 := 0x02.
Definition s2 := 0x13.
Definition s3 := 0x03.
Definition s4 := 0x23.
Definition s5 := 0x34.
Definition s6 := 0x04.
Definition s7 := 0x44.

(** The table [first], by ranges of the leading byte. *)
Definition first (p0 : Z) : Z :=
  if p0 <? 0x80 then as_
  else if p0 <? 0xC2 then xx
  else if p0 <? 0xE0 then s1
  else if p0 =? 0xE0 then s2
  else if p0 <? 0xED then s3
  else if p0 =? 0xED then s4
  else if p0 <? 0xF0 then s3
  else if p0 =? 0xF0 then s5
  else if p0 <? 0xF4 then s6
  else if p0 =? 0xF4 then s7
  else xx.

Definition acceptRanges (i : Z) : Z * Z :=
  match i with
  | 0 => (locb, hicb)
  | 1 => (0xA0, hicb)
  | 2 => (locb, 0x9F)
  | 3 => (0x90, hicb)
  | 4 => (locb, 0x8F)
  | _ => (0, 0)
  end.

Definition at_ (p : bytes) (i : nat) : Z := byteZ (nth i p x00).

(** [DecodeRune p]: the first rune of [p] and its width in bytes;
    [(RuneError, 0)] on the empty slice, [(RuneError, 1)] on an invalid
    encoding.  For [x >= as] Go selects between [p[0]] and [RuneError]
    with a mask made of bit 0 of [x]. *)
Definition DecodeRune (p : bytes) : rune * nat :=
  let n := length p in
  if (n <? 1)%nat then (RuneError, 0%nat)
  else
    let p0 := at_ p 0 in
    let x := first p0 in
    if as_ <=? x then ((if Z.testbit x 0 then RuneError else p0), 1%nat)
    else
      let sz := Z.to_nat (Z.land x 7) in
      let accept := acceptRanges (Z.shiftr x 4) in
      if (n <? sz)%nat then (RuneError, 1%nat)
      else
        let b1 := at_ p 1 in
        if (b1 <? fst accept) || (snd accept <? b1) then (RuneError, 1%nat)
        else if (sz <=? 2)%nat then
          (Z.lor (Z.shiftl (Z.land p0 mask2) 6) (Z.land b1 maskx), 2%nat)
        else
          let b2 := at_ p 2 in
          if (b2 <? locb) || (hicb <? b2) then (RuneError, 1%nat)
          else if (sz <=? 3)%nat then
            (Z.lor (Z.lor (Z.shiftl (Z.land p0 mask3) 12)
                          (Z.shiftl (Z.land b1 maskx) 6))
                   (Z.land b2 maskx), 3%nat)
          else
            let b3 := at_ p 3 in
            if (b3 <? locb) || (hicb <? b3) then (RuneError, 1%nat)
            else
              (Z.lor (Z.lor (Z.lor (Z.shiftl (Z.land p0 mask4) 18)
                                   (Z.shiftl (Z.land b1 maskx) 12))
                            (Z.shiftl (Z.land b2 maskx) 6))
                     (Z.land b3 maskx), 4%nat).

(** [RuneLen r]: bytes needed to encode [r], -1 when [r] is not a valid
    value to encode. *)
Definition RuneLen (r : rune) : Z :=
  if r <? 0 then -1
  else if r <=? 0x7F then 1
  else if r <=? 0x7FF then 2
  else if (0xD800 <=? r) && (r <=? 0xDFFF) then -1
  else if r <=? 0xFFFF then 3
  else if r <=? 0x10FFFF then 4
  else -1.

End Utf8.

(** ** Package [bytes] (Go standard library) *)
Module Bytes.

Definition HasPrefix (s prefix : bytes) : bool :=
  (length prefix <=? length s)%nat
  && bytes_eqb (firstn (length prefix) s) prefix.

Definition HasSuffix (s suffix : bytes) : bool :=
  (length suffix <=? length s)%nat
  && bytes_eqb (skipn (length s - length suffix) s) suffix.

(** [Index s sep]: position of the first occurrence of [sep] in [s];
    [None] stands for Go's -1. *)
Fixpoint indexFrom (s sep : bytes) (i : nat) : option nat :=
  if HasPrefix s sep then Some i
  else match s with
       | [] => None
       | _ :: s' => indexFrom s' sep (S i)
       end.

Definition Index (s sep : bytes) : option nat := indexFrom s sep 0.

(** [explode s]: one slice per UTF-8 sequence, invalid bytes one by one. *)
Fixpoint explode (fuel : nat) (s : bytes) : list bytes :=
  match fuel, s with
  | _, [] => []
  | O, _ => [s]
  | S f, _ =>
      let size := snd (Utf8.DecodeRune s) in
      firstn size s :: explode f (skipn size s)
  end.

(** The loop of [genSplit] for a non-empty separator: cut at each
    occurrence found from the left.  Every cut consumes at least one byte,
    so [length s] rounds are enough and the last round sees no match. *)
Fixpoint splitLoop (fuel : nat) (s sep : bytes) : list bytes :=
  match fuel with
  | O => [s]
  | S f =>
      match Index s sep with
      | None => [s]
      | Some m => firstn m s :: splitLoop f (skipn (m + length sep) s) sep
      end
  end.

Definition Split (s sep : bytes) : list bytes :=
  match sep with
  | [] => explode (length s) s
  | _ => splitLoop (length s) s sep
  end.

End Bytes.

(** ** Package [strs] of go-corelib *)
Module Strs.

(** Modelled from the spec: [ByteIndexWithEsc] belongs to the library
    [github.com/jf-tech/go-corelib/strs], whose source is not part of this
    repository.  It is the
    search the spec describes for the scanner and the reader: the position
    of the first occurrence of [delim] that is not escaped, where the
    release sequence [esc] escapes the next byte, the release byte
    included.  The loop visits the positions [i] at which [delim] still
    fits; on [esc] it jumps over [esc] and the byte that follows it
    ([skip] counts the positions still to be jumped over); [None] stands
    for -1.  Without [esc] it is [bytes.Index]. *)
Fixpoint indexWithEscFrom (s delim esc : bytes) (skip i : nat) : option nat :=
  match s with
  | [] => None
  | _ :: s' =>
      match skip with
      | S k => indexWithEscFrom s' delim esc k (S i)
      | O =>
          if (length s <? length delim)%nat then None
          else if Bytes.HasPrefix s esc then
            indexWithEscFrom s' delim esc (length esc) (S i)
          else if Bytes.HasPrefix s delim then Some i
          else indexWithEscFrom s' delim esc 0 (S i)
      end
  end.

Definition ByteIndexWithEsc (s delim esc : bytes) : option nat :=
  if (length delim =? 0)%nat then Some 0%nat
  else if (length s =? 0)%nat then None
  else if (length esc =? 0)%nat then Bytes.Index s delim
  else indexWithEscFrom s delim esc 0 0.

(** Modelled from the spec: [ByteSplitWithEsc] of the same library, the
    split "by the delimiter honoring the release byte": without a
    delimiter or without a release sequence it is [bytes.Split]; otherwise
    the pieces between the unescaped occurrences of [delim], release bytes
    kept as they are.  The capacity hint [cap] of the Go function only
    sizes the result and is left out.  Every cut consumes [delim], which
    is not empty here, so [length s] rounds are enough. *)
Fixpoint splitWithEscLoop (fuel : nat) (s delim esc : bytes) : list bytes :=
  match fuel with
  | O => [s]
  | S f =>
      match ByteIndexWithEsc s delim esc with
      | None => [s]
      | Some delimIndex =>
          firstn delimIndex s
          :: splitWithEscLoop f (skipn (delimIndex + length delim) s) delim esc
      end
  end.

Definition ByteSplitWithEsc (s delim esc : bytes) : list bytes :=
  if (length delim =? 0)%nat || (length esc =? 0)%nat then Bytes.Split s delim
  else splitWithEscLoop (length s) s delim esc.

End Strs.

(** [glueFirst x pieces]: the pieces with [x] put in front of the first. *)
Definition glueFirst (x : bytes) (pieces : list bytes) : list bytes :=
  match pieces with
  | [] => [x]
  | p :: ps => (x ++ p) :: ps
  end.

(** ** Package [ios] of go-corelib and [bufio.Scanner] *)
Module Ios.

(** What the reader sees of a [bufio.Scanner]: the tokens [Scan] still
    delivers, and [Err].  [ioErr] is the error the underlying stream ends
    with, if it is not a plain end of input.  [toks] are the tokens cut
    before that error is met; once it is met ([failed]) the scanner keeps
    it for good and [Err] returns it, while [Scan] may still deliver the
    tokens cut from the bytes already buffered ([lateToks]) before it
    returns false for ever. *)
Record Scanner := mkScanner {
  toks : list bytes;
  ioErr : option string;
  lateToks : list bytes;
  failed : bool
}.

(** [Scan] followed by [Bytes]: the token, or [None] when [Scan] returns
    false. *)
Definition Scan (s : Scanner) : option bytes * Scanner :=
  match toks s with
  | t :: ts => (Some t, mkScanner ts (ioErr s) (lateToks s) (failed s))
  | [] =>
      match ioErr s with
      | None => (None, s)
      | Some _ =>
          match lateToks s with
          | t :: ts => (Some t, mkScanner [] (ioErr s) ts true)
          | [] => (None, mkScanner [] (ioErr s) [] true)
          end
      end
  end.

Definition Err (s : Scanner) : option string :=
  if failed s then ioErr s else None.

(** Number of tokens [Scan] can still deliver. *)
Definition pending (s : Scanner) : nat :=
  (length (toks s) + match ioErr s with
                     | Some _ => length (lateToks s)
                     | None => 0
                     end)%nat.

(** Modelled from the spec: the split function [NewScannerByDelim3]
    installs belongs to go-corelib, whose source is not part of this
    repository.  On a stream that delivers [data] and then
    ends, the tokens are the pieces up to and including each unescaped
    occurrence of [delim] (the reader keeps the delimiter in [RawSeg.Raw]
    and cuts it off itself); what follows the last delimiter is a token
    only under the flag [eofAsDelim].  Meant for a non-empty [delim]; the
    size limit of the scanner's buffer is not modelled. *)
Fixpoint scanTokens (fuel : nat) (data delim esc : bytes) (eofAsDelim : bool)
  : list bytes :=
  match fuel, data with
  | _, [] => []
  | O, _ => []
  | S f, _ =>
      match Strs.ByteIndexWithEsc data delim esc with
      | Some index =>
          firstn (index + length delim) data
          :: scanTokens f (skipn (index + length delim) data) delim esc eofAsDelim
      | None => if eofAsDelim then [data] else []
      end
  end.

Definition NewScannerByDelim3 (data delim esc : bytes) (eofAsDelim : bool)
  : Scanner :=
  mkScanner (scanTokens (length data) data delim esc eofAsDelim) None [] false.

(** [NewBytesReplacingReader r search nil] for a one-byte [search]: the
    stream without that byte. *)
Definition NewBytesReplacingReader (data : bytes) (search : byte) : bytes :=
  filter (fun c => negb (Byte.eqb c search)) data.

End Ios.

(** ** Package [edi]: the non-validating reader *)
Module Edi.

(** The errors [Read] returns: an [ErrInvalidEDI] or [io.EOF]. *)
Inductive error :=
| ErrInvalidEDI (msg : string)
| EOF.

Definition Error (e : error) : string :=
  match e with
  | ErrInvalidEDI msg => msg
  | EOF => "EOF"%string
  end.

Definition IsErrInvalidEDI (err : error) : bool :=
  match err with
  | ErrInvalidEDI _ => true
  | _ => false
  end.

Record RawSegElem := mkRawSegElem {
  ElemIndex : Z;
  CompIndex : Z;
  Data : bytes
}.

Record RawSeg := mkRawSeg {
  valid : bool;
  Name : string;
  Raw : option bytes;
  Elems : list RawSegElem
}.

(** The zero value [RawSeg{}]. *)
Definition zeroRawSeg : RawSeg := mkRawSeg false ""%string None [].

Definition newRawSeg : RawSeg := mkRawSeg false ""%string None [].

Definition resetRawSeg (raw : RawSeg) : RawSeg :=
  mkRawSeg false ""%string None (firstn 0 (Elems raw)).

(** The loop of [runeCountAndHasOnlyCRLF].  A round that does not return
    consumes [size >= 1] bytes, so [S (length b)] rounds reach the return. *)
Fixpoint runeCountLoop (fuel : nat) (b : bytes) (runeCount : Z) (onlyCRLF : bool)
  : Z * bool :=
  match fuel with
  | O => (runeCount, onlyCRLF)
  | S f =>
      let '(r, size) := Utf8.DecodeRune b in
      if r =? Utf8.RuneError then (runeCount, onlyCRLF)
      else
        let onlyCRLF :=
          if negb (r =? 10) && negb (r =? 13) then false else onlyCRLF in
        runeCountLoop f (skipn size b) (runeCount + 1) onlyCRLF
  end.

Definition runeCountAndHasOnlyCRLF (b : bytes) : Z * bool :=
  runeCountLoop (S (length b)) b 0 true.

Definition crBytes : bytes := [x0d].
Definition lfBytes : bytes := [x0a].

Record strPtrByte := mkStrPtrByte {
  strptr : option string;
  b : bytes
}.

Definition newStrPtrByte (strptr : option string) : strPtrByte :=
  mkStrPtrByte strptr
    match strptr with
    | Some s => list_byte_of_string s
    | None => []
    end.

Record NonValidatingReader := mkReader {
  scanner : Ios.Scanner;
  segDelim : strPtrByte;
  elemDelim : strPtrByte;
  compDelim : strPtrByte;
  repDelim : strPtrByte;
  releaseChar : strPtrByte;
  runeBegin : Z;
  runeEnd : Z;
  segCount : Z;
  rawSeg : RawSeg
}.

Definition with_scanner (r : NonValidatingReader) (sc : Ios.Scanner) :=
  mkReader sc (segDelim r) (elemDelim r) (compDelim r) (repDelim r)
    (releaseChar r) (runeBegin r) (runeEnd r) (segCount r) (rawSeg r).

Definition with_runes (r : NonValidatingReader) (rb re : Z) :=
  mkReader (scanner r) (segDelim r) (elemDelim r) (compDelim r) (repDelim r)
    (releaseChar r) rb re (segCount r) (rawSeg r).

Definition with_segCount (r : NonValidatingReader) (n : Z) :=
  mkReader (scanner r) (segDelim r) (elemDelim r) (compDelim r) (repDelim r)
    (releaseChar r) (runeBegin r) (runeEnd r) n (rawSeg r).

Definition with_rawSeg (r : NonValidatingReader) (seg : RawSeg) :=
  mkReader (scanner r) (segDelim r) (elemDelim r) (compDelim r) (repDelim r)
    (releaseChar r) (runeBegin r) (runeEnd r) (segCount r) seg.

(** What a call does: it returns, or it panics. *)
Inductive outcome (A : Type) :=
| Returned (a : A)
| Panicked.
Arguments Returned {A} a.
Arguments Panicked {A}.

(** A line written to the standard output by [fmt.Println(string(b))],
    where [b] is [json.Marshal] of a segment: the line is kept as the
    segment that was marshaled. *)
Inductive output :=
| PrintlnJSON (marshaled : RawSeg).

(** [for i, x := range l { st = body i x st }] *)
Fixpoint rangeLoop {A St : Type} (body : Z -> A -> St -> St)
  (i : Z) (l : list A) (st : St) : St :=
  match l with
  | [] => st
  | x :: l' => rangeLoop body (i + 1) l' (body i x st)
  end.

Section ReadToken.
Variable r : NonValidatingReader.

(** The innermost loop of [readToken]: one entry per component. *)
Definition appendComps (i : Z) (elemVal : bytes) (elems : list RawSegElem) :=
  rangeLoop
    (fun j comp elems => elems ++ [mkRawSegElem i (j + 1) comp])
    0 (Strs.ByteSplitWithEsc elemVal (b (compDelim r)) (b (releaseChar r)))
    elems.

(** The body of the loop over [elemVals]. *)
Definition appendElemVal (i : Z) (elems : list RawSegElem) (elemVal : bytes) :=
  if (length (b (compDelim r)) =? 0)%nat then
    elems ++ [mkRawSegElem i 1 elemVal]
  else appendComps i elemVal elems.

(** The body of the loop over the elements. *)
Definition appendElem (i : Z) (elem : bytes) (elems : list RawSegElem) :=
  let elemVals :=
    if negb (length (b (repDelim r)) =? 0)%nat then
      Strs.ByteSplitWithEsc elem (b (repDelim r)) (b (releaseChar r))
    else [elem] in
  fold_left (appendElemVal i) elemVals elems.

Definition appendElems (noSegDelim : bytes) (elems : list RawSegElem) :=
  rangeLoop appendElem 0
    (Strs.ByteSplitWithEsc noSegDelim (b (elemDelim r)) (b (releaseChar r)))
    elems.

(** [noSegDelim] as [readToken] computes it: the token without its last
    [len(segDelim.b)] bytes and, when the delimiter is a bare line feed,
    without a carriage return before it.  The slice expression panics
    on a token shorter than the delimiter, and so does the dereference
    of a nil [segDelim.strptr]. *)
Definition dropSegDelim (token : bytes) : outcome bytes :=
  if (length token <? length (b (segDelim r)))%nat then Panicked
  else
    let noSegDelim := firstn (length token - length (b (segDelim r))) token in
    match strptr (segDelim r) with
    | None => Panicked
    | Some sd =>
        if (sd =? string_of_list_byte lfBytes)%string
           && Bytes.HasSuffix noSegDelim crBytes
        then Returned (firstn (length noSegDelim - Z.to_nat (Utf8.RuneLen 13))
                              noSegDelim)
        else Returned noSegDelim
    end.

(** [readToken token &r.rawSeg]: the error returned, the reader with its
    [rawSeg] as the call leaves it, and the lines printed.  In [Read]
    the pointer [rawSeg] is [&r.rawSeg], the segment [json.Marshal]
    reads at the end; [json.Marshal] has no error for a [RawSeg]. *)
Definition readToken (token : bytes)
  : outcome (option error) * NonValidatingReader * list output :=
  let seg := resetRawSeg (rawSeg r) in
  let seg := mkRawSeg (valid seg) (Name seg) (Some token) (Elems seg) in
  match dropSegDelim token with
  | Panicked => (Panicked, with_rawSeg r seg, [])
  | Returned noSegDelim =>
      let elems := appendElems noSegDelim (Elems seg) in
      let seg := mkRawSeg (valid seg) (Name seg) (Raw seg) elems in
      if (length elems =? 0)%nat
         || (length (Data (nth 0 elems (mkRawSegElem 0 0 []))) =? 0)%nat
      then (Returned (Some (ErrInvalidEDI "missing segment name"%string)),
            with_rawSeg r seg, [])
      else
        let name := string_of_list_byte (Data (nth 0 elems (mkRawSegElem 0 0 []))) in
        let seg := mkRawSeg true name (Raw seg) (Elems seg) in
        (Returned None, with_rawSeg r seg, [PrintlnJSON seg])
  end.
End ReadToken.

(** The scanning loop of [Read]: the first token that is not made of CR
    and LF only ([None] when [Scan] returns false first), the rune
    positions moved over every token scanned. *)
Fixpoint nextToken (fuel : nat) (r : NonValidatingReader)
  : option bytes * NonValidatingReader :=
  match fuel with
  | O => (None, r)
  | S f =>
      match Ios.Scan (scanner r) with
      | (None, sc) => (None, with_scanner r sc)
      | (Some b, sc) =>
          let '(count, onlyCRLF) := runeCountAndHasOnlyCRLF b in
          let r := with_runes (with_scanner r sc)
                     (runeEnd r) (wrap64 (runeEnd r + count)) in
          if onlyCRLF then nextToken f r else (Some b, r)
      end
  end.

(** [Read]: what the call returns, the reader after it, the lines it
    printed.  The loop runs at most once per token the scanner still
    holds, and once more to see [Scan] return false. *)
Definition Read (r : NonValidatingReader)
  : outcome (RawSeg * option error) * NonValidatingReader * list output :=
  let '(token, r) := nextToken (S (Ios.pending (scanner r))) r in
  let r := with_segCount r (wrap64 (segCount r + 1)) in
  match Ios.Err (scanner r) with
  | Some err =>
      (Returned (zeroRawSeg,
                 Some (ErrInvalidEDI ("cannot read segment, err: " ++ err)%string)),
       r, [])
  | None =>
      match token with
      | None => (Returned (zeroRawSeg, Some EOF), r, [])
      | Some token =>
          match readToken r token with
          | (Returned (Some err), r, out) => (Returned (zeroRawSeg, Some err), r, out)
          | (Returned None, r, out) => (Returned (rawSeg r, None), r, out)
          | (Panicked, r, out) => (Panicked, r, out)
          end
      end
  end.

Definition RuneBegin (r : NonValidatingReader) : Z := runeBegin r.
Definition RuneEnd (r : NonValidatingReader) : Z := runeEnd r.
Definition SegCount (r : NonValidatingReader) : Z := segCount r.

(** Modelled from the spec: the declaration of the struct [FileDecl] is
    missing from the sources of the package; these are the fields
    [NewNonValidatingReader] reads, the delimiters the specification calls
    optional being [*string]. *)
Record FileDecl := mkFileDecl {
  SegDelim : string;
  ElemDelim : string;
  CompDelim : option string;
  RepDelim : option string;
  ReleaseChar : option string;
  IgnoreCRLF : bool
}.

(** [NewNonValidatingReader r decl] on a stream [r] that delivers [input]
    and ends.  The constant [scannerFlags] is declared elsewhere in the
    package: the delimiter is kept in the tokens, as [readToken] needs,
    and the flag for the bytes after the last delimiter is the parameter
    [eofAsDelim]. *)
Definition NewNonValidatingReader (eofAsDelim : bool) (input : bytes)
  (decl : FileDecl) : NonValidatingReader :=
  let segDelim := newStrPtrByte (Some (SegDelim decl)) in
  let elemDelim := newStrPtrByte (Some (ElemDelim decl)) in
  let compDelim := newStrPtrByte (CompDelim decl) in
  let repDelim := newStrPtrByte (RepDelim decl) in
  let releaseChar := newStrPtrByte (ReleaseChar decl) in
  let input :=
    if IgnoreCRLF decl then
      Ios.NewBytesReplacingReader (Ios.NewBytesReplacingReader input x0d) x0a
    else input in
  let scanner :=
    Ios.NewScannerByDelim3 input (b segDelim) (b releaseChar) eofAsDelim in
  mkReader scanner segDelim elemDelim compDelim repDelim releaseChar
    1 1 0 newRawSeg.

(** The reader after [n] calls of [Read]. *)
Fixpoint readN (n : nat) (r : NonValidatingReader) : NonValidatingReader :=
  match n with
  | O => r
  | S k => readN k (snd (fst (Read r)))
  end.

(** What the [n+1]-th call of [Read] returns. *)
Definition nthRead (n : nat) (r : NonValidatingReader)
  : outcome (RawSeg * option error) :=
  fst (fst (Read (readN n r))).

(** The token [Read] goes on with: the first one the scanning loop does
    not skip, when the scanner reports no error. *)
Definition processes (r : NonValidatingReader) (token : bytes) : Prop :=
  exists r1,
    nextToken (S (Ios.pending (scanner r))) r = (Some token, r1)
    /\ Ios.Err (scanner r1) = None.

(** The delimiters are the same in both readers. *)
Definition sameConfig (r1 r2 : NonValidatingReader) : Prop :=
  segDelim r1 = segDelim r2 /\ elemDelim r1 = elemDelim r2
  /\ compDelim r1 = compDelim r2 /\ repDelim r1 = repDelim r2
  /\ releaseChar r1 = releaseChar r2.

(** *** The splitting of a token as the specification words it

    A delimiter is configured when it has bytes (an unset delimiter has
    none).  Elements, repetitions and components are numbered from 0 in
    the order they are cut. *)
Section Spec.
Variable r : NonValidatingReader.

Definition configured (d : strPtrByte) : bool :=
  negb (length (b d) =? 0)%nat.

Fixpoint enumerate {A : Type} (i : Z) (l : list A) : list (Z * A) :=
  match l with
  | [] => []
  | x :: l' => (i, x) :: enumerate (i + 1) l'
  end.

Definition spec_split (s : bytes) (d : strPtrByte) : list bytes :=
  Strs.ByteSplitWithEsc s (b d) (b (releaseChar r)).

Definition spec_repetitions (elem : bytes) : list bytes :=
  if configured (repDelim r) then spec_split elem (repDelim r) else [elem].

Definition spec_components (i : Z) (value : bytes) : list RawSegElem :=
  if configured (compDelim r) then
    map (fun jc => mkRawSegElem i (fst jc + 1) (snd jc))
        (enumerate 0 (spec_split value (compDelim r)))
  else [mkRawSegElem i 1 value].

Definition spec_elements (noSegDelim : bytes) : list RawSegElem :=
  flat_map
    (fun ie => flat_map (spec_components (fst ie)) (spec_repetitions (snd ie)))
    (enumerate 0 (spec_split noSegDelim (elemDelim r))).
End Spec.

(** *** Notions used to state further properties of the reader *)

(** The tokens [Scan] still delivers, in order. *)
Definition remaining (s : Ios.Scanner) : list bytes :=
  Ios.toks s ++ match Ios.ioErr s with
                | Some _ => Ios.lateToks s
                | None => []
                end.

(** [skips t]: the scanning loop of [Read] passes over the token [t]. *)
Definition skips (t : bytes) : bool := snd (runeCountAndHasOnlyCRLF t).

(** The runes [runeCountAndHasOnlyCRLF] counts in a list of tokens. *)
Definition totalRunes (ts : list bytes) : Z :=
  fold_right (fun t n => fst (runeCountAndHasOnlyCRLF t) + n) 0 ts.

Definition isCRLF (c : byte) : bool := Byte.eqb c x0d || Byte.eqb c x0a.

(** What [Read] returns once it goes on with [token]: the last [match] of
    [Read]. *)
Definition segmentOf (r : NonValidatingReader) (token : bytes)
  : outcome (RawSeg * option error) :=
  match readToken r token with
  | (Returned (Some err), _, _) => Returned (zeroRawSeg, Some err)
  | (Returned None, r, _) => Returned (rawSeg r, None)
  | (Panicked, _, _) => Panicked
  end.

(** [joinBytes sep l]: the pieces of [l] with [sep] between them
    ([bytes.Join]). *)
Fixpoint joinBytes (sep : bytes) (l : list bytes) : bytes :=
  match l with
  | [] => []
  | [x] => x
  | x :: l' => x ++ sep ++ joinBytes sep l'
  end.

(** The delimiter that stood between two consecutive entries of a segment:
    the element delimiter when the element index changes; within an
    element, the repetition delimiter before a component of index 1 and
    the component delimiter otherwise. *)
Definition separator (r : NonValidatingReader) (e e' : RawSegElem) : bytes :=
  if ElemIndex e' =? ElemIndex e then
    if CompIndex e' =? 1 then b (repDelim r) else b (compDelim r)
  else b (elemDelim r).

(** The entries put together again with these delimiters. *)
Fixpoint rejoin (r : NonValidatingReader) (elems : list RawSegElem) : bytes :=
  match elems with
  | [] => []
  | e :: rest =>
      match rest with
      | [] => Data e
      | e' :: _ => Data e ++ separator r e e' ++ rejoin r rest
      end
  end.

(** [follows e e']: the entry [e'] is the next component, the first
    component of the next repetition, or the first component of the next
    element after [e]. *)
Definition follows (e e' : RawSegElem) : Prop :=
  (ElemIndex e' = ElemIndex e
   /\ (CompIndex e' = CompIndex e + 1 \/ CompIndex e' = 1))
  \/ (ElemIndex e' = ElemIndex e + 1 /\ CompIndex e' = 1).

Fixpoint chained (elems : list RawSegElem) : Prop :=
  match elems with
  | [] => True
  | e :: rest =>
      match rest with
      | [] => True
      | e' :: _ => follows e e' /\ chained rest
      end
  end.

End Edi.

(** * Properties *)

Import Edi.

(** ** Byte strings *)

Lemma bytes_eqb_eq (x y : bytes) : bytes_eqb x y = true <-> x = y.
Proof.
  revert y; induction x as [|c x IH]; intros [|e y]; simpl; split;
    try congruence; try reflexivity.
  - intros H. apply andb_prop in H as [H1 H2].
    apply Byte.byte_dec_bl in H1. apply IH in H2. congruence.
  - intros H. injection H as -> ->.
    rewrite Byte.byte_dec_lb by reflexivity. simpl. now apply IH.
Qed.

Lemma bytes_eqb_refl (x : bytes) : bytes_eqb x x = true.
Proof. now apply bytes_eqb_eq. Qed.

Lemma byte_eqb_neq (x y : byte) : x <> y -> Byte.eqb x y = false.
Proof.
  intros H. destruct (Byte.eqb x y) eqn:E; trivial.
  apply Byte.byte_dec_bl in E. contradiction.
Qed.

(** ** The loops of [readToken] against the wording of the specification *)

Lemma rangeLoop_append {A B : Type} (f : Z -> A -> list B) (l : list A) :
  forall i acc,
    rangeLoop (fun j x acc => acc ++ f j x) i l acc
    = acc ++ flat_map (fun jx => f (fst jx) (snd jx)) (enumerate i l).
Proof.
  induction l as [|x l IH]; intros i acc; simpl.
  - now rewrite app_nil_r.
  - rewrite IH. now rewrite <- app_assoc.
Qed.

Lemma flat_map_singleton {A B : Type} (f : A -> B) (l : list A) :
  flat_map (fun x => [f x]) l = map f l.
Proof. induction l; simpl; congruence. Qed.

Section Loops.
Variable r : NonValidatingReader.

Lemma appendElemVal_spec i acc elemVal :
  appendElemVal r i acc elemVal = acc ++ spec_components r i elemVal.
Proof.
  unfold appendElemVal, spec_components, configured, appendComps, spec_split.
  destruct (length (b (compDelim r)) =? 0)%nat; simpl; trivial.
  rewrite (rangeLoop_append (fun j comp => [mkRawSegElem i (j + 1) comp])).
  now rewrite flat_map_singleton.
Qed.

Lemma appendElem_spec i elem acc :
  appendElem r i elem acc
  = acc ++ flat_map (spec_components r i) (spec_repetitions r elem).
Proof.
  unfold appendElem, spec_repetitions, configured, spec_split.
  match goal with |- fold_left _ ?l _ = _ => generalize l end.
  intros l; revert acc.
  induction l as [|x l IH]; intros acc; simpl.
  - now rewrite app_nil_r.
  - rewrite IH, appendElemVal_spec. now rewrite <- app_assoc.
Qed.

Lemma appendElems_spec noSegDelim acc :
  appendElems r noSegDelim acc = acc ++ spec_elements r noSegDelim.
Proof.
  unfold appendElems, spec_elements, spec_split.
  generalize (Strs.ByteSplitWithEsc noSegDelim (b (elemDelim r))
                (b (releaseChar r))) as l.
  generalize 0 as i. intros i l; revert i acc.
  induction l as [|x l IH]; intros i acc; simpl.
  - now rewrite app_nil_r.
  - rewrite IH, appendElem_spec. now rewrite <- app_assoc.
Qed.
End Loops.

(** ** What [Read] leaves unchanged, and how its result comes about *)

Lemma sameConfig_refl r : sameConfig r r.
Proof. repeat split. Qed.

Lemma sameConfig_trans r1 r2 r3 :
  sameConfig r1 r2 -> sameConfig r2 r3 -> sameConfig r1 r3.
Proof.
  unfold sameConfig. intros (?&?&?&?&?) (?&?&?&?&?).
  repeat split; congruence.
Qed.

Lemma nextToken_keeps fuel :
  forall r token r1,
    nextToken fuel r = (token, r1) ->
    sameConfig r r1 /\ segCount r1 = segCount r /\ rawSeg r1 = rawSeg r.
Proof.
  induction fuel as [|f IH]; intros r token r1; simpl.
  - intros H; injection H as <- <-. split; [apply sameConfig_refl | auto].
  - destruct (Ios.Scan (scanner r)) as [[tok|] sc].
    + destruct (runeCountAndHasOnlyCRLF tok) as [count onlyCRLF].
      destruct onlyCRLF.
      * intros H. apply IH in H as (Hc & Hs & Hr). simpl in *.
        split; [|auto]. unfold sameConfig in *; simpl in *. exact Hc.
      * intros H; injection H as <- <-. simpl.
        split; [repeat split | auto].
    + intros H; injection H as <- <-. simpl. split; [repeat split | auto].
Qed.

Lemma appendElems_config r1 r2 s acc :
  sameConfig r1 r2 -> appendElems r1 s acc = appendElems r2 s acc.
Proof.
  intros (Hs & He & Hc & Hr & Hx).
  rewrite !appendElems_spec. f_equal.
  unfold spec_elements, spec_repetitions, spec_components, spec_split, configured.
  now rewrite He, Hc, Hr, Hx.
Qed.

Lemma dropSegDelim_config r1 r2 token :
  sameConfig r1 r2 -> dropSegDelim r1 token = dropSegDelim r2 token.
Proof.
  intros (Hs & _). unfold dropSegDelim. now rewrite Hs.
Qed.

(** The three ways out of [readToken]. *)
Lemma readToken_cases r token :
  let seg0 := mkRawSeg false ""%string (Some token) [] in
  match dropSegDelim r token with
  | Panicked => readToken r token = (Panicked, with_rawSeg r seg0, [])
  | Returned noSegDelim =>
      let elems := appendElems r noSegDelim [] in
      match elems with
      | [] =>
          readToken r token
          = (Returned (Some (ErrInvalidEDI "missing segment name")),
             with_rawSeg r (mkRawSeg false ""%string (Some token) []), [])
      | e :: rest =>
          match Data e with
          | [] =>
              readToken r token
              = (Returned (Some (ErrInvalidEDI "missing segment name")),
                 with_rawSeg r (mkRawSeg false ""%string (Some token) elems), [])
          | _ :: _ =>
              let seg := mkRawSeg true (string_of_list_byte (Data e))
                           (Some token) elems in
              readToken r token
              = (Returned None, with_rawSeg r seg, [PrintlnJSON seg])
          end
      end
  end.
Proof.
  unfold readToken, resetRawSeg; simpl.
  destruct (dropSegDelim r token) as [noSegDelim|]; trivial.
  destruct (appendElems r noSegDelim []) as [|e rest]; simpl; trivial.
  destruct (Data e); simpl; trivial.
Qed.

Lemma readToken_ok_inv r token r' out :
  readToken r token = (Returned None, r', out) ->
  exists noSegDelim e rest,
    dropSegDelim r token = Returned noSegDelim
    /\ appendElems r noSegDelim [] = e :: rest
    /\ Data e <> []
    /\ r' = with_rawSeg r (mkRawSeg true (string_of_list_byte (Data e))
                             (Some token) (e :: rest))
    /\ out = [PrintlnJSON (rawSeg r')].
Proof.
  intros H. pose proof (readToken_cases r token) as C. simpl in C.
  destruct (dropSegDelim r token) as [noSegDelim|]; [|congruence].
  destruct (appendElems r noSegDelim []) as [|e rest] eqn:E; [congruence|].
  destruct (Data e) eqn:D; [congruence|].
  rewrite C in H. injection H as <- <-.
  exists noSegDelim, e, rest. rewrite D. repeat split; congruence.
Qed.

(** [Read], step by step. *)
Lemma Read_unfold r :
  Read r =
  let tr := nextToken (S (Ios.pending (scanner r))) r in
  let r2 := with_segCount (snd tr) (wrap64 (segCount (snd tr) + 1)) in
  match Ios.Err (scanner (snd tr)) with
  | Some err =>
      (Returned (zeroRawSeg,
                 Some (ErrInvalidEDI ("cannot read segment, err: " ++ err)%string)),
       r2, [])
  | None =>
      match fst tr with
      | None => (Returned (zeroRawSeg, Some EOF), r2, [])
      | Some token =>
          match readToken r2 token with
          | (Returned (Some err), r3, out) => (Returned (zeroRawSeg, Some err), r3, out)
          | (Returned None, r3, out) => (Returned (rawSeg r3, None), r3, out)
          | (Panicked, r3, out) => (Panicked, r3, out)
          end
      end
  end.
Proof.
  unfold Read. destruct (nextToken _ r) as [token r1]. reflexivity.
Qed.

Lemma Read_ok_inv r seg r' out :
  Read r = (Returned (seg, None), r', out) ->
  exists token r1,
    nextToken (S (Ios.pending (scanner r))) r = (Some token, r1)
    /\ Ios.Err (scanner r1) = None
    /\ readToken (with_segCount r1 (wrap64 (segCount r1 + 1))) token
       = (Returned None, r', out)
    /\ seg = rawSeg r'.
Proof.
  rewrite Read_unfold.
  destruct (nextToken _ r) as [token r1]; simpl.
  destruct (Ios.Err (scanner r1)) eqn:Herr; [congruence|].
  destruct token as [token|]; [|congruence].
  destruct (readToken _ token) as [[[[e|]|] r3] o] eqn:E; try congruence.
  intros H; injection H as <- <- <-.
  exists token, r1. repeat split; trivial.
Qed.

(** ** Splitting into elements, repetitions and components *)

(** The declaration of the scenario "repetition then component": segments
    end with [~], elements with [*], repetitions with [^], components with
    [:], and there is no release character. *)
Lemma scenario3_first_read eofAsDelim :
  fst (fst (Read (NewNonValidatingReader eofAsDelim (bs "REF*A^B:1*Z~")
                    (mkFileDecl "~" "*" (Some ":"%string) (Some "^"%string)
                       None false))))
  = Returned
      (mkRawSeg true "REF" (Some (bs "REF*A^B:1*Z~"))
         [ mkRawSegElem 0 1 (bs "REF");
           mkRawSegElem 1 1 (bs "A");
           mkRawSegElem 1 1 (bs "B");
           mkRawSegElem 1 2 (bs "1");
           mkRawSegElem 2 1 (bs "Z") ],
       None).
Proof. destruct eofAsDelim; vm_compute; reflexivity. Qed.

(** The entries of a segment [Read] returns, in the words of the
    specification. *)
Lemma read_elements_spec r seg r' out :
  Read r = (Returned (seg, None), r', out) ->
  exists token noSegDelim,
    Raw seg = Some token
    /\ dropSegDelim r token = Returned noSegDelim
    /\ Elems seg = spec_elements r noSegDelim.
Proof.
  intros H.
  apply Read_ok_inv in H as (token & r1 & Hn & _ & Ht & ->).
  apply nextToken_keeps in Hn as (Hc & _).
  apply readToken_ok_inv in Ht as (noSegDelim & e & rest & Hd & He & _ & -> & _).
  exists token, noSegDelim. simpl.
  assert (Hc' : sameConfig r (with_segCount r1 (wrap64 (segCount r1 + 1))))
    by exact Hc.
  split; [reflexivity|]. split.
  - rewrite (dropSegDelim_config _ _ _ Hc'). exact Hd.
  - rewrite <- He, <- (appendElems_config _ _ _ _ Hc').
    now rewrite appendElems_spec.
Qed.

(** C1.  Whenever [Read] returns a segment, its entries are those the
    specification describes: the token without its segment delimiter is
    split by the element delimiter honoring the release byte, each element
    by the repetition delimiter when one is configured (else it is one
    repetition), each repetition by the component delimiter when one is
    configured (else it is one component of index 1), the entries in the
    order of the cuts, the j-th component (from 0) with component index
    j+1.  And `REF*A^B:1*Z~` with repetitions by `^` and components by `:`
    gives (0,1,REF), (1,1,A), (1,1,B), (1,2,1), (2,1,Z). *)
Theorem read_elements_follow_spec :
  (forall r seg r' out,
      Read r = (Returned (seg, None), r', out) ->
      exists token noSegDelim,
        Raw seg = Some token
        /\ dropSegDelim r token = Returned noSegDelim
        /\ Elems seg = spec_elements r noSegDelim)
  /\ (forall eofAsDelim,
         fst (fst (Read (NewNonValidatingReader eofAsDelim (bs "REF*A^B:1*Z~")
                           (mkFileDecl "~" "*" (Some ":"%string) (Some "^"%string)
                              None false))))
         = Returned
             (mkRawSeg true "REF" (Some (bs "REF*A^B:1*Z~"))
                [ mkRawSegElem 0 1 (bs "REF");
                  mkRawSegElem 1 1 (bs "A");
                  mkRawSegElem 1 1 (bs "B");
                  mkRawSegElem 1 2 (bs "1");
                  mkRawSegElem 2 1 (bs "Z") ],
              None)).
Proof.
  split; [exact read_elements_spec | apply scenario3_first_read].
Qed.

Lemma read_elements_follow_spec_witness :
  let r := NewNonValidatingReader false (bs "REF*A^B:1*Z~")
             (mkFileDecl "~" "*" (Some ":"%string) (Some "^"%string) None false) in
  Read r = (Returned (rawSeg (snd (fst (Read r))), None),
            snd (fst (Read r)), snd (Read r))
  /\ exists token noSegDelim,
    Raw (rawSeg (snd (fst (Read r)))) = Some token
    /\ dropSegDelim r token = Returned noSegDelim
    /\ Elems (rawSeg (snd (fst (Read r)))) = spec_elements r noSegDelim.
Proof.
  intros r. split; [vm_compute; reflexivity|].
  apply (proj1 read_elements_follow_spec r
           (rawSeg (snd (fst (Read r)))) (snd (fst (Read r))) (snd (Read r))).
  vm_compute. reflexivity.
Defined.

(** ** The name slot *)

Lemma splitLoop_nonempty fuel s sep : Bytes.splitLoop fuel s sep <> [].
Proof.
  destruct fuel; simpl; [discriminate|].
  destruct (Bytes.Index s sep); discriminate.
Qed.

Lemma splitWithEscLoop_nonempty fuel s delim esc :
  Strs.splitWithEscLoop fuel s delim esc <> [].
Proof.
  destruct fuel; simpl; [discriminate|].
  destruct (Strs.ByteIndexWithEsc s delim esc); discriminate.
Qed.

(** A split by a delimiter that has bytes always gives a piece. *)
Lemma ByteSplitWithEsc_nonempty s delim esc :
  (length delim =? 0)%nat = false -> Strs.ByteSplitWithEsc s delim esc <> [].
Proof.
  intros H. unfold Strs.ByteSplitWithEsc. rewrite H. simpl.
  destruct (length esc =? 0)%nat.
  - unfold Bytes.Split. destruct delim; [discriminate|].
    apply splitLoop_nonempty.
  - apply splitWithEscLoop_nonempty.
Qed.

Section NameSlot.
Variable r : NonValidatingReader.

Lemma spec_components_index i v :
  Forall (fun x => ElemIndex x = i) (spec_components r i v).
Proof.
  unfold spec_components. destruct (configured (compDelim r)).
  - apply Forall_forall. intros x Hx. apply in_map_iff in Hx as (jc & <- & _).
    reflexivity.
  - repeat constructor.
Qed.

Lemma spec_components_nonempty i v : spec_components r i v <> [].
Proof.
  unfold spec_components, spec_split.
  destruct (configured (compDelim r)) eqn:E; [|discriminate].
  unfold configured in E. apply negb_true_iff in E.
  pose proof (ByteSplitWithEsc_nonempty v _ (b (releaseChar r)) E) as N.
  destruct (Strs.ByteSplitWithEsc v (b (compDelim r)) (b (releaseChar r)));
    [congruence | discriminate].
Qed.

Lemma spec_repetitions_nonempty elem : spec_repetitions r elem <> [].
Proof.
  unfold spec_repetitions, spec_split.
  destruct (configured (repDelim r)) eqn:E; [|discriminate].
  unfold configured in E. apply negb_true_iff in E.
  now apply ByteSplitWithEsc_nonempty.
Qed.

(** The entries cut from one element all carry its index, and there is at
    least one. *)
Lemma element_entries_index i elem :
  Forall (fun x => ElemIndex x = i)
    (flat_map (spec_components r i) (spec_repetitions r elem)).
Proof.
  apply Forall_flat_map, Forall_forall. intros v _.
  apply spec_components_index.
Qed.

Lemma element_entries_nonempty i elem :
  flat_map (spec_components r i) (spec_repetitions r elem) <> [].
Proof.
  pose proof (spec_repetitions_nonempty elem) as N.
  destruct (spec_repetitions r elem) as [|v vs]; [congruence|]. simpl.
  pose proof (spec_components_nonempty i v) as M.
  destruct (spec_components r i v); [congruence | discriminate].
Qed.

Lemma later_entries_index (l : list bytes) :
  forall i,
    Forall (fun x => i <= ElemIndex x)
      (flat_map
         (fun ie => flat_map (spec_components r (fst ie))
                      (spec_repetitions r (snd ie)))
         (enumerate i l)).
Proof.
  induction l as [|p l IH]; intros i; simpl; [constructor|].
  apply Forall_app. split.
  - eapply Forall_impl; [|apply element_entries_index].
    simpl. intros; lia.
  - eapply Forall_impl; [|apply (IH (i + 1))]. simpl. intros; lia.
Qed.
End NameSlot.

(** C2, as stated, fails: with a component delimiter configured, a name
    piece that contains it is cut like any other element, and the second
    entry of `A:B*C~` still has element index 0. *)
Lemma name_slot_counterexample :
  let r := NewNonValidatingReader false (bs "A:B*C~")
             (mkFileDecl "~" "*" (Some ":"%string) None None false) in
  fst (fst (Read r))
  = Returned
      (mkRawSeg true "A" (Some (bs "A:B*C~"))
         [ mkRawSegElem 0 1 (bs "A");
           mkRawSegElem 0 2 (bs "B");
           mkRawSegElem 1 1 (bs "C") ],
       None)
  /\ ~ (forall r seg r' out,
           Read r = (Returned (seg, None), r', out) ->
           forall e rest,
             Elems seg = e :: rest ->
             Forall (fun x => 1 <= ElemIndex x) rest).
Proof.
  intros r. split; [vm_compute; reflexivity|].
  intros H.
  specialize (H r (rawSeg (snd (fst (Read r)))) (snd (fst (Read r)))
                (snd (Read r)) eq_refl
                (mkRawSegElem 0 1 (bs "A"))
                [mkRawSegElem 0 2 (bs "B"); mkRawSegElem 1 1 (bs "C")] eq_refl).
  inversion H as [|x l Hx _]; subst. simpl in Hx. lia.
Qed.

(** C2, amended.  In every segment [Read] returns, the first entry holds
    the name and has element index 0; the entries are those of the name
    piece, all of element index 0, followed by the entries of the later
    elements, all of element index at least 1; and when neither a
    repetition nor a component delimiter is configured the name piece gives
    the first entry only, so that every other entry has element index at
    least 1. *)
Theorem name_slot_amended r seg r' out :
  Read r = (Returned (seg, None), r', out) ->
  exists e rest,
    Elems seg = e :: rest
    /\ Name seg = string_of_list_byte (Data e)
    /\ ElemIndex e = 0
    /\ (exists nameEntries laterEntries,
           Elems seg = nameEntries ++ laterEntries
           /\ Forall (fun x => ElemIndex x = 0) nameEntries
           /\ Forall (fun x => 1 <= ElemIndex x) laterEntries)
    /\ (configured (repDelim r) = false ->
        configured (compDelim r) = false ->
        Forall (fun x => 1 <= ElemIndex x) rest).
Proof.
  intros H.
  destruct (read_elements_spec r seg r' out H)
    as (token & noSegDelim & _ & _ & HE).
  apply Read_ok_inv in H as (token' & r1 & _ & _ & Ht & ->).
  apply readToken_ok_inv in Ht as (nsd & e & rest & _ & _ & _ & -> & _).
  simpl in *. exists e, rest.
  split; [reflexivity|]. split; [reflexivity|].
  unfold spec_elements in HE.
  destruct (spec_split r noSegDelim (elemDelim r)) as [|p ps]; [discriminate|].
  simpl in HE.
  pose proof (element_entries_index r 0 p) as H0.
  pose proof (element_entries_nonempty r 0 p) as N0.
  pose proof (later_entries_index r ps (0 + 1)) as H1.
  set (name := flat_map (spec_components r 0) (spec_repetitions r p)) in *.
  destruct name as [|x xs] eqn:En; [congruence|].
  simpl in HE. injection HE as -> ->.
  repeat split.
  - now inversion H0.
  - exists (x :: xs), (flat_map
                         (fun ie => flat_map (spec_components r (fst ie))
                                      (spec_repetitions r (snd ie)))
                         (enumerate (0 + 1) ps)).
    repeat split; trivial.
  - intros Hr Hc. subst name.
    unfold spec_repetitions, spec_components in En. rewrite Hr, Hc in En.
    simpl in En. injection En as _ <-. exact H1.
Qed.

Lemma name_slot_amended_witness :
  let r := NewNonValidatingReader false (bs "A:B*C~")
             (mkFileDecl "~" "*" (Some ":"%string) None None false) in
  let seg := rawSeg (snd (fst (Read r))) in
  Read r = (Returned (seg, None), snd (fst (Read r)), snd (Read r))
  /\ exists e rest,
      Elems seg = e :: rest
      /\ Name seg = string_of_list_byte (Data e)
      /\ ElemIndex e = 0
      /\ (exists nameEntries laterEntries,
             Elems seg = nameEntries ++ laterEntries
             /\ Forall (fun x => ElemIndex x = 0) nameEntries
             /\ Forall (fun x => 1 <= ElemIndex x) laterEntries)
      /\ (configured (repDelim r) = false ->
          configured (compDelim r) = false ->
          Forall (fun x => 1 <= ElemIndex x) rest).
Proof.
  intros r seg. split; [vm_compute; reflexivity|].
  apply (name_slot_amended r seg (snd (fst (Read r))) (snd (Read r))).
  vm_compute. reflexivity.
Defined.

(** ** Errors *)

Lemma readToken_segCount r token :
  segCount (snd (fst (readToken r token))) = segCount r.
Proof.
  pose proof (readToken_cases r token) as C. simpl in C.
  destruct (dropSegDelim r token) as [noSegDelim|]; [|now rewrite C].
  destruct (appendElems r noSegDelim []) as [|e rest]; [now rewrite C|].
  destruct (Data e); now rewrite C.
Qed.

Lemma readToken_error r token e r' out :
  readToken r token = (Returned (Some e), r', out) ->
  e = ErrInvalidEDI "missing segment name" /\ out = [].
Proof.
  pose proof (readToken_cases r token) as C. simpl in C.
  destruct (dropSegDelim r token) as [noSegDelim|]; [|congruence].
  destruct (appendElems r noSegDelim []) as [|x rest];
    [rewrite C; intros H; injection H as <- _ <-; auto|].
  destruct (Data x); rewrite C; intros H; [|discriminate].
  injection H as <- _ <-; auto.
Qed.

(** C9.  Whenever [Read] returns an error, [io.EOF] included, the segment
    it returns with it is the zero value: no name, nil raw bytes, no
    elements. *)
Theorem read_error_returns_zero_segment r seg e r' out :
  Read r = (Returned (seg, Some e), r', out) ->
  seg = zeroRawSeg
  /\ Name seg = ""%string /\ Raw seg = None /\ Elems seg = [] /\ valid seg = false.
Proof.
  rewrite Read_unfold.
  destruct (nextToken _ r) as [token r1]; simpl.
  assert (Z0 : forall s, s = zeroRawSeg ->
                         s = zeroRawSeg /\ Name s = ""%string /\ Raw s = None
                         /\ Elems s = [] /\ valid s = false)
    by (intros s ->; repeat split).
  destruct (Ios.Err (scanner r1)).
  - intros H; injection H as <- _ _ _. now apply Z0.
  - destruct token as [token|].
    + destruct (readToken _ token) as [[[[x|]|] r3] o]; try discriminate.
      intros H; injection H as <- _ _ _. now apply Z0.
    + intros H; injection H as <- _ _ _. now apply Z0.
Qed.

Lemma read_error_returns_zero_segment_witness :
  let r := NewNonValidatingReader false (bs "*A~")
             (mkFileDecl "~" "*" None None None false) in
  Read r = (Returned (zeroRawSeg, Some (ErrInvalidEDI "missing segment name")),
            snd (fst (Read r)), [])
  /\ (zeroRawSeg = zeroRawSeg
      /\ Name zeroRawSeg = ""%string /\ Raw zeroRawSeg = None
      /\ Elems zeroRawSeg = [] /\ valid zeroRawSeg = false).
Proof.
  intros r. split; [vm_compute; reflexivity|].
  apply (read_error_returns_zero_segment r zeroRawSeg
           (ErrInvalidEDI "missing segment name") (snd (fst (Read r))) []).
  vm_compute. reflexivity.
Defined.

(** ** The segment count *)

Lemma Read_segCount r :
  segCount (snd (fst (Read r))) = wrap64 (segCount r + 1).
Proof.
  rewrite Read_unfold.
  destruct (nextToken _ r) as [token r1] eqn:N; simpl.
  apply nextToken_keeps in N as (_ & Hs & _).
  destruct (Ios.Err (scanner r1)); simpl; [now rewrite Hs|].
  destruct token as [token|]; simpl; [|now rewrite Hs].
  pose proof (readToken_segCount
                (with_segCount r1 (wrap64 (segCount r1 + 1))) token) as Hc.
  destruct (readToken _ token) as [[[[x|]|] r3] o]; simpl in *;
    now rewrite Hc, Hs.
Qed.

Lemma wrap64_small z : - 2 ^ 63 <= z < 2 ^ 63 -> wrap64 z = z.
Proof.
  intros H. unfold wrap64. rewrite Z.mod_small; lia.
Qed.

Lemma readN_segCount n :
  forall r,
    0 <= segCount r ->
    segCount r + Z.of_nat n < 2 ^ 63 ->
    segCount (readN n r) = segCount r + Z.of_nat n.
Proof.
  induction n as [|n IH]; intros r H0 H; simpl readN.
  - lia.
  - assert (E : segCount (snd (fst (Read r))) = segCount r + 1).
    { rewrite Read_segCount. apply wrap64_small. lia. }
    rewrite IH; rewrite E; lia.
Qed.

(** C10.  Every call of [Read] adds one to the segment count, whatever the
    call returns (a segment, EOF or an error, CR/LF-only tokens skipped or
    not): in 64-bit arithmetic in general, exactly when the count is not at
    the largest [int]; hence after [n] calls on a new reader [SegCount] is
    [n]. *)
Theorem read_counts_calls :
  (forall r, SegCount (snd (fst (Read r))) = wrap64 (SegCount r + 1))
  /\ (forall r, - 2 ^ 63 <= SegCount r < 2 ^ 63 - 1 ->
                SegCount (snd (fst (Read r))) = SegCount r + 1)
  /\ (forall eofAsDelim input decl n,
         Z.of_nat n < 2 ^ 63 ->
         SegCount (readN n (NewNonValidatingReader eofAsDelim input decl))
         = Z.of_nat n).
Proof.
  unfold SegCount. split; [exact Read_segCount|]. split.
  - intros r H. rewrite Read_segCount. apply wrap64_small. lia.
  - intros eofAsDelim input decl n H.
    rewrite readN_segCount; simpl; lia.
Qed.

(** ** The missing segment name *)

Lemma Read_missing_name_inv r seg r' out :
  Read r = (Returned (seg, Some (ErrInvalidEDI "missing segment name")), r', out) ->
  exists token r1,
    nextToken (S (Ios.pending (scanner r))) r = (Some token, r1)
    /\ Ios.Err (scanner r1) = None
    /\ fst (fst (readToken (with_segCount r1 (wrap64 (segCount r1 + 1))) token))
       = Returned (Some (ErrInvalidEDI "missing segment name")).
Proof.
  rewrite Read_unfold.
  destruct (nextToken _ r) as [token r1]; simpl.
  destruct (Ios.Err (scanner r1)) eqn:Herr; [discriminate|].
  destruct token as [token|]; [|discriminate].
  destruct (readToken _ token) as [[[[x|]|] r3] o] eqn:E; try discriminate.
  intros H; injection H as _ -> _ _.
  exists token, r1. rewrite E. repeat split; trivial.
Qed.

(** C4.  [Read] fails with [ErrInvalidEDI "missing segment name"] exactly
    when it goes on with a token whose splitting gives no entry at all or a
    first entry without data; and when [Read] returns a segment, the name is
    the data of the first entry, which is not empty. *)
Theorem missing_segment_name_iff r :
  ((exists seg r' out,
       Read r = (Returned (seg, Some (ErrInvalidEDI "missing segment name")),
                 r', out))
   <-> (exists token noSegDelim,
           processes r token
           /\ dropSegDelim r token = Returned noSegDelim
           /\ (spec_elements r noSegDelim = []
               \/ exists e rest, spec_elements r noSegDelim = e :: rest
                                 /\ Data e = [])))
  /\ (forall seg r' out,
         Read r = (Returned (seg, None), r', out) ->
         exists e rest,
           Elems seg = e :: rest /\ Data e <> []
           /\ Name seg = string_of_list_byte (Data e)).
Proof.
  split.
  - split.
    + intros (seg & r' & out & H).
      apply Read_missing_name_inv in H as (token & r1 & Hn & Herr & Ht).
      pose proof (nextToken_keeps _ _ _ _ Hn) as (Hc & _).
      set (r2 := with_segCount r1 (wrap64 (segCount r1 + 1))) in *.
      assert (Hc' : sameConfig r r2) by exact Hc.
      pose proof (readToken_cases r2 token) as C. simpl in C.
      rewrite <- (dropSegDelim_config _ _ _ Hc') in C.
      destruct (dropSegDelim r token) as [noSegDelim|] eqn:D;
        [|rewrite C in Ht; discriminate].
      rewrite <- (appendElems_config _ _ _ _ Hc'), appendElems_spec in C.
      simpl in C.
      exists token, noSegDelim. split; [exists r1; auto|]. split; trivial.
      destruct (spec_elements r noSegDelim) as [|e rest]; [now left|].
      right. exists e, rest. split; trivial.
      destruct (Data e); trivial. rewrite C in Ht. discriminate.
    + intros (token & noSegDelim & (r1 & Hn & Herr) & D & HE).
      pose proof (nextToken_keeps _ _ _ _ Hn) as (Hc & _).
      rewrite Read_unfold, Hn. simpl. rewrite Herr.
      set (r2 := with_segCount r1 (wrap64 (segCount r1 + 1))) in *.
      assert (Hc' : sameConfig r r2) by exact Hc.
      pose proof (readToken_cases r2 token) as C. simpl in C.
      rewrite <- (dropSegDelim_config _ _ _ Hc'), D in C.
      rewrite <- (appendElems_config _ _ _ _ Hc'), appendElems_spec in C.
      simpl in C.
      destruct HE as [HE | (e & rest & HE & HD)]; rewrite HE in C;
        [|rewrite HD in C]; rewrite C; eauto.
  - intros seg r' out H.
    apply Read_ok_inv in H as (token & r1 & _ & _ & Ht & ->).
    apply readToken_ok_inv in Ht as (nsd & e & rest & _ & _ & Hne & -> & _).
    exists e, rest. simpl. auto.
Qed.

(** ** The standard output *)

(** Every [Read] that returns a segment writes exactly one line, that
    segment marshaled; a [Read] that returns an error writes nothing. *)
Lemma Read_output r seg err r' out :
  Read r = (Returned (seg, err), r', out) ->
  out = match err with
        | None => [PrintlnJSON seg]
        | Some _ => []
        end.
Proof.
  rewrite Read_unfold.
  destruct (nextToken _ r) as [token r1]; simpl.
  destruct (Ios.Err (scanner r1)); [intros H; now injection H as <- <- _ <-|].
  destruct token as [token|]; [|intros H; now injection H as <- <- _ <-].
  destruct (readToken _ token) as [[[[x|]|] r3] o] eqn:E; try discriminate.
  - apply readToken_error in E as (_ & ->).
    intros H; now injection H as <- <- _ <-.
  - apply readToken_ok_inv in E as (_ & _ & _ & _ & _ & _ & _ & ->).
    intros H; now injection H as <- <- <- <-.
Qed.

(** C5 fails on the code: a [Read] that returns a segment prints it.  On
    `ISA*00*x~` the call writes one line, the marshaled segment. *)
Theorem read_prints_segment :
  let r := NewNonValidatingReader false (bs "ISA*00*x~")
             (mkFileDecl "~" "*" None None None false) in
  let seg := mkRawSeg true "ISA" (Some (bs "ISA*00*x~"))
               [ mkRawSegElem 0 1 (bs "ISA");
                 mkRawSegElem 1 1 (bs "00");
                 mkRawSegElem 2 1 (bs "x") ] in
  fst (fst (Read r)) = Returned (seg, None)
  /\ snd (Read r) = [PrintlnJSON seg]
  /\ snd (Read r) <> [].
Proof.
  intros r seg. repeat split; try (vm_compute; reflexivity).
  vm_compute. discriminate.
Qed.

(** ** Which errors stay *)

Lemma Scan_pending s t s' :
  Ios.Scan s = (Some t, s') -> (Ios.pending s' < Ios.pending s)%nat.
Proof.
  unfold Ios.Scan, Ios.pending. destruct s as [tk io late fl]; simpl.
  destruct tk as [|x tk]; simpl.
  - destruct io as [e|]; [|discriminate].
    destruct late as [|y late]; [discriminate|].
    intros H; injection H as _ <-; simpl. lia.
  - intros H; injection H as _ <-; simpl. lia.
Qed.

Lemma Scan_keeps_failure s o s' x :
  Ios.Scan s = (o, s') ->
  Ios.failed s = true -> Ios.ioErr s = Some x ->
  Ios.failed s' = true /\ Ios.ioErr s' = Some x.
Proof.
  unfold Ios.Scan. destruct s as [tk io late fl]; simpl.
  intros H -> ->. destruct tk as [|y tk].
  - destruct late; injection H as _ <-; auto.
  - injection H as _ <-; auto.
Qed.

(** When [Scan] returns false the scanner is at its end: no token is left,
    and an error of the stream, if any, has been recorded. *)
Lemma Scan_false s s' :
  Ios.Scan s = (None, s') ->
  Ios.toks s' = []
  /\ (Ios.ioErr s' = None \/ Ios.failed s' = true)
  /\ Ios.Scan s' = (None, s').
Proof.
  unfold Ios.Scan. destruct s as [tk io late fl]; simpl.
  destruct tk as [|y tk]; [|discriminate].
  destruct io as [e|].
  - destruct late; [|discriminate]. intros H; injection H as <-; simpl. auto.
  - intros H; injection H as <-; simpl. auto.
Qed.

(** The fuel [Read] gives to its scanning loop is never used up: the loop
    ends on a token or on a [Scan] that returns false. *)
Lemma nextToken_ends fuel :
  forall r r1,
    (Ios.pending (scanner r) < fuel)%nat ->
    nextToken fuel r = (None, r1) ->
    Ios.toks (scanner r1) = []
    /\ (Ios.ioErr (scanner r1) = None \/ Ios.failed (scanner r1) = true).
Proof.
  induction fuel as [|f IH]; intros r r1 Hf; [lia|]. simpl.
  destruct (Ios.Scan (scanner r)) as [[tok|] sc] eqn:S.
  - apply Scan_pending in S.
    destruct (runeCountAndHasOnlyCRLF tok) as [count [|]]; [|discriminate].
    intros H. apply IH in H; trivial. simpl. lia.
  - intros H; injection H as <-. simpl.
    apply Scan_false in S as (? & ? & _). auto.
Qed.

Lemma nextToken_fuel f1 :
  forall f2 r,
    (Ios.pending (scanner r) < f1)%nat ->
    (Ios.pending (scanner r) < f2)%nat ->
    nextToken f1 r = nextToken f2 r.
Proof.
  induction f1 as [|f1 IH]; intros [|f2] r H1 H2; try lia. simpl.
  destruct (Ios.Scan (scanner r)) as [[tok|] sc] eqn:S; trivial.
  apply Scan_pending in S.
  destruct (runeCountAndHasOnlyCRLF tok) as [count [|]]; trivial.
  apply IH; simpl; lia.
Qed.

Lemma nextToken_keeps_failure fuel x :
  forall r o r1,
    nextToken fuel r = (o, r1) ->
    Ios.failed (scanner r) = true -> Ios.ioErr (scanner r) = Some x ->
    Ios.failed (scanner r1) = true /\ Ios.ioErr (scanner r1) = Some x.
Proof.
  induction fuel as [|f IH]; intros r o r1; simpl.
  - intros H; injection H as _ <-. auto.
  - destruct (Ios.Scan (scanner r)) as [[tok|] sc] eqn:S; intros H Hf He;
      destruct (Scan_keeps_failure _ _ _ _ S Hf He) as [Hf' He'].
    + destruct (runeCountAndHasOnlyCRLF tok) as [count [|]].
      * apply IH in H; auto.
      * injection H as _ <-. auto.
    + injection H as _ <-. auto.
Qed.

(** A reader whose scanner has recorded the error [x] of the stream returns
    it, and stays so. *)
Lemma Read_failed r x :
  Ios.failed (scanner r) = true -> Ios.ioErr (scanner r) = Some x ->
  fst (fst (Read r))
  = Returned (zeroRawSeg,
              Some (ErrInvalidEDI ("cannot read segment, err: " ++ x)%string))
  /\ Ios.failed (scanner (snd (fst (Read r)))) = true
  /\ Ios.ioErr (scanner (snd (fst (Read r)))) = Some x.
Proof.
  intros Hf He. rewrite Read_unfold.
  destruct (nextToken _ r) as [token r1] eqn:N; simpl.
  destruct (nextToken_keeps_failure _ _ _ _ _ N Hf He) as [Hf' He'].
  unfold Ios.Err. rewrite Hf', He'. simpl. auto.
Qed.

(** A reader whose scanner is at the end of a stream that ended well returns
    EOF, and stays so. *)
Lemma Read_at_end r :
  Ios.toks (scanner r) = [] -> Ios.ioErr (scanner r) = None ->
  fst (fst (Read r)) = Returned (zeroRawSeg, Some EOF)
  /\ Ios.toks (scanner (snd (fst (Read r)))) = []
  /\ Ios.ioErr (scanner (snd (fst (Read r)))) = None.
Proof.
  intros Ht He. unfold Read, Ios.pending, Ios.Err. rewrite Ht, He. simpl.
  unfold Ios.Scan. rewrite Ht, He. simpl.
  unfold Ios.Err. rewrite He. destruct (Ios.failed (scanner r)); simpl; auto.
Qed.

Lemma nthRead_failed n x :
  forall r,
    Ios.failed (scanner r) = true -> Ios.ioErr (scanner r) = Some x ->
    nthRead n r
    = Returned (zeroRawSeg,
                Some (ErrInvalidEDI ("cannot read segment, err: " ++ x)%string)).
Proof.
  unfold nthRead.
  induction n as [|n IH]; intros r Hf He; simpl readN;
    destruct (Read_failed r x Hf He) as (H & Hf' & He'); auto.
Qed.

Lemma nthRead_at_end n :
  forall r,
    Ios.toks (scanner r) = [] -> Ios.ioErr (scanner r) = None ->
    nthRead n r = Returned (zeroRawSeg, Some EOF).
Proof.
  unfold nthRead.
  induction n as [|n IH]; intros r Ht He; simpl readN;
    destruct (Read_at_end r Ht He) as (H & Ht' & He'); auto.
Qed.

(** C6, as stated, fails: the reader does not remember the error of
    [readToken].  After "missing segment name" on `*A~` the next call reads
    the next token, `ISA*1~`, and returns its segment. *)
Lemma sticky_error_counterexample :
  let r := NewNonValidatingReader false (bs "*A~ISA*1~")
             (mkFileDecl "~" "*" None None None false) in
  nthRead 0 r
  = Returned (zeroRawSeg, Some (ErrInvalidEDI "missing segment name"))
  /\ nthRead 1 r
     = Returned (mkRawSeg true "ISA" (Some (bs "ISA*1~"))
                   [mkRawSegElem 0 1 (bs "ISA"); mkRawSegElem 1 1 (bs "1")],
                 None)
  /\ ~ (forall r n m seg msg,
           nthRead n r = Returned (seg, Some (ErrInvalidEDI msg)) ->
           (n <= m)%nat ->
           nthRead m r = Returned (seg, Some (ErrInvalidEDI msg))).
Proof.
  intros r.
  assert (H0 : nthRead 0 r
               = Returned (zeroRawSeg,
                           Some (ErrInvalidEDI "missing segment name")))
    by (vm_compute; reflexivity).
  split; [exact H0|]. split; [vm_compute; reflexivity|].
  intros H. specialize (H r 0%nat 1%nat _ _ H0 (Nat.le_succ_diag_r 0)).
  vm_compute in H. discriminate.
Qed.

(** C6, amended.  The errors that come from the scanner stay: once [Read]
    has returned an error other than "missing segment name" -- the
    [ErrInvalidEDI] "cannot read segment" of a failed stream, or EOF --
    every later call returns the same. *)
Theorem scanner_errors_stay r seg e r' out :
  Read r = (Returned (seg, Some e), r', out) ->
  e <> ErrInvalidEDI "missing segment name" ->
  forall n, nthRead n r' = Returned (seg, Some e).
Proof.
  rewrite Read_unfold.
  destruct (nextToken _ r) as [token r1] eqn:N; simpl.
  destruct (Ios.Err (scanner r1)) as [x|] eqn:Herr.
  - intros H _ n. injection H as <- <- <- _.
    unfold Ios.Err in Herr.
    destruct (Ios.failed (scanner r1)) eqn:Hf; [|discriminate].
    now apply nthRead_failed.
  - destruct token as [token|].
    + destruct (readToken _ token) as [[[[x|]|] r3] o] eqn:E; try discriminate.
      intros H Hne. injection H as _ <- _ _.
      apply readToken_error in E as (-> & _). congruence.
    + intros H _ n. injection H as <- <- <- _.
      apply nextToken_ends in N as (Ht & He); [|lia].
      apply nthRead_at_end; simpl; trivial.
      destruct He as [He|Hf]; trivial.
      unfold Ios.Err in Herr. rewrite Hf in Herr. exact Herr.
Qed.

Lemma scanner_errors_stay_witness :
  let sd := newStrPtrByte (Some "~"%string) in
  let ed := newStrPtrByte (Some "*"%string) in
  let no := newStrPtrByte None in
  let r := mkReader (Ios.mkScanner [bs "ISA*1~"] (Some "unexpected EOF"%string)
                       [bs "GS*2~"] false)
             sd ed no no no 1 1 0 newRawSeg in
  let e := ErrInvalidEDI "cannot read segment, err: unexpected EOF" in
  nthRead 1 r = Returned (zeroRawSeg, Some e)
  /\ e <> ErrInvalidEDI "missing segment name"
  /\ forall n, nthRead n (readN 2 r) = Returned (zeroRawSeg, Some e).
Proof.
  intros sd ed no r e.
  split; [vm_compute; reflexivity|]. split; [discriminate|].
  apply (scanner_errors_stay (readN 1 r) zeroRawSeg e (readN 2 r) []).
  - vm_compute. reflexivity.
  - discriminate.
Defined.

(** ** Tokens of CR and LF *)

Lemma DecodeRune_cr rest : Utf8.DecodeRune (x0d :: rest) = (13, 1%nat).
Proof. reflexivity. Qed.

Lemma DecodeRune_lf rest : Utf8.DecodeRune (x0a :: rest) = (10, 1%nat).
Proof. reflexivity. Qed.

Lemma runeCountLoop_crlf (t : bytes) :
  Forall (fun c => c = x0d \/ c = x0a) t ->
  forall fuel n,
    (length t < fuel)%nat ->
    runeCountLoop fuel t n true = (n + Z.of_nat (length t), true).
Proof.
  induction 1 as [|c t Hc _ IH]; intros fuel n Hf;
    (destruct fuel as [|f]; [simpl in Hf; lia|]).
  - simpl. f_equal. lia.
  - simpl in Hf.
    destruct Hc as [-> | ->]; cbn [runeCountLoop];
      [rewrite DecodeRune_cr | rewrite DecodeRune_lf];
      cbn -[Z.of_nat Z.add]; rewrite IH by lia; f_equal;
      change (length (_ :: t)) with (S (length t)); lia.
Qed.

(** A token made of CR and LF only is reported as such, with one rune per
    byte: the scanning loop of [Read] moves the rune positions over it and
    goes on to the next token. *)
Lemma crlf_only_token (t : bytes) :
  Forall (fun c => c = x0d \/ c = x0a) t ->
  runeCountAndHasOnlyCRLF t = (Z.of_nat (length t), true).
Proof.
  intros H. unfold runeCountAndHasOnlyCRLF.
  rewrite runeCountLoop_crlf; trivial. lia.
Qed.

Lemma DecodeRune_size p : p <> [] -> (1 <= snd (Utf8.DecodeRune p))%nat.
Proof.
  intros H. unfold Utf8.DecodeRune.
  destruct p as [|c p]; [congruence|]. simpl length.
  change (S (length p) <? 1)%nat with false. cbv iota zeta.
  repeat match goal with
         | |- context [if ?c then _ else _] => destruct c
         end; simpl; lia.
Qed.

(** The rounds [runeCountAndHasOnlyCRLF] allows its loop are enough: more
    change nothing. *)
Lemma runeCountLoop_fuel f1 :
  forall f2 t n o,
    (length t < f1)%nat -> (length t < f2)%nat ->
    runeCountLoop f1 t n o = runeCountLoop f2 t n o.
Proof.
  induction f1 as [|f1 IH]; intros [|f2] t n o H1 H2; try lia.
  cbn [runeCountLoop].
  destruct t as [|c t]; [reflexivity|].
  pose proof (DecodeRune_size (c :: t)) as Hs.
  destruct (Utf8.DecodeRune (c :: t)) as [r size].
  destruct (r =? Utf8.RuneError); trivial.
  simpl snd in Hs. specialize (Hs ltac:(discriminate)).
  simpl length in H1, H2.
  apply IH; rewrite length_skipn; simpl length; lia.
Qed.

(** C7 fails on the code: [runeCountAndHasOnlyCRLF] stops at the first rune
    that decodes to [utf8.RuneError] and still answers "only CR/LF" when it
    has seen nothing else before.  The token made of U+FFFD (bytes EF BF BD)
    and `ISA*1~` (valid UTF-8, not made of CR and LF) is skipped: [Read] returns EOF and the rune
    positions have not moved. *)
Theorem non_crlf_token_skipped :
  let token := [xef; xbf; xbd] ++ bs "ISA*1~" in
  let r := NewNonValidatingReader false token
             (mkFileDecl "~" "*" None None None false) in
  Ios.toks (scanner r) = [token]
  /\ runeCountAndHasOnlyCRLF token = (0, true)
  /\ fst (fst (Read r)) = Returned (zeroRawSeg, Some EOF)
  /\ RuneEnd (snd (fst (Read r))) = 1.
Proof. intros token r. repeat split; vm_compute; reflexivity. Qed.

(** ** Carriage return before a line feed delimiter *)

Lemma HasSuffix_app (x y : bytes) : Bytes.HasSuffix (x ++ y) y = true.
Proof.
  unfold Bytes.HasSuffix. rewrite length_app.
  replace (length x + length y - length y)%nat with (length x) by lia.
  rewrite skipn_app, skipn_all, Nat.sub_diag. simpl.
  rewrite bytes_eqb_refl, andb_true_r. apply Nat.leb_le. lia.
Qed.

Lemma firstn_app_exact {A : Type} (x y : list A) n :
  n = length x -> firstn n (x ++ y) = x.
Proof.
  intros ->. rewrite firstn_app, Nat.sub_diag, firstn_all. simpl.
  apply app_nil_r.
Qed.

Lemma dropSegDelim_crlf r body :
  segDelim r = newStrPtrByte (Some (string_of_list_byte lfBytes)) ->
  dropSegDelim r (body ++ crBytes ++ lfBytes) = Returned body.
Proof.
  intros H. unfold dropSegDelim. rewrite H. simpl b. simpl strptr.
  change (list_byte_of_string (string_of_list_byte lfBytes)) with lfBytes.
  lazy beta iota. rewrite String.eqb_refl.
  rewrite app_assoc.
  assert (L : length ((body ++ crBytes) ++ lfBytes) = S (length (body ++ crBytes)))
    by (rewrite length_app; simpl; lia).
  rewrite L. change (length lfBytes) with 1%nat.
  replace (S (length (body ++ crBytes)) <? 1)%nat with false
    by (symmetry; apply Nat.ltb_ge; lia).
  rewrite (firstn_app_exact (body ++ crBytes)) by lia.
  rewrite HasSuffix_app. simpl andb. cbv iota.
  rewrite firstn_app_exact; trivial.
  rewrite length_app. change (Z.to_nat (Utf8.RuneLen 13)) with 1%nat.
  simpl length. lia.
Qed.

(** C8.  When the segment delimiter is a bare line feed and the token ends
    with a carriage return before it, the elements are cut from the token
    without both; and `ISA*1~` followed by CR LF, with segment delimiter
    `~`, gives one segment and then EOF, whether the scanner hands out the
    bytes after the last delimiter or not. *)
Theorem crlf_tolerance :
  (forall r body,
      segDelim r = newStrPtrByte (Some (string_of_list_byte lfBytes)) ->
      dropSegDelim r (body ++ crBytes ++ lfBytes) = Returned body
      /\ Elems (rawSeg (snd (fst (readToken r (body ++ crBytes ++ lfBytes)))))
         = spec_elements r body)
  /\ (forall eofAsDelim,
         let r := NewNonValidatingReader eofAsDelim
                    (bs "ISA*1~" ++ crBytes ++ lfBytes)
                    (mkFileDecl "~" "*" None None None false) in
         nthRead 0 r
         = Returned (mkRawSeg true "ISA" (Some (bs "ISA*1~"))
                       [mkRawSegElem 0 1 (bs "ISA"); mkRawSegElem 1 1 (bs "1")],
                     None)
         /\ nthRead 1 r = Returned (zeroRawSeg, Some EOF)).
Proof.
  split.
  - intros r body H. pose proof (dropSegDelim_crlf r body H) as D.
    split; trivial.
    pose proof (readToken_cases r (body ++ crBytes ++ lfBytes)) as C.
    cbv zeta in C. rewrite D in C. rewrite appendElems_spec in C.
    rewrite app_nil_l in C.
    destruct (spec_elements r body) as [|e rest]; [now rewrite C|].
    destruct (Data e); now rewrite C.
  - intros [|]; split; vm_compute; reflexivity.
Qed.

Lemma crlf_tolerance_witness :
  let r := NewNonValidatingReader false []
             (mkFileDecl (string_of_list_byte lfBytes) "*" None None None false) in
  segDelim r = newStrPtrByte (Some (string_of_list_byte lfBytes))
  /\ dropSegDelim r (bs "ISA*1" ++ crBytes ++ lfBytes) = Returned (bs "ISA*1")
  /\ Elems (rawSeg (snd (fst (readToken r (bs "ISA*1" ++ crBytes ++ lfBytes)))))
     = spec_elements r (bs "ISA*1").
Proof.
  intros r. split; [reflexivity|].
  apply (proj1 crlf_tolerance r (bs "ISA*1")). reflexivity.
Defined.

Lemma missing_segment_name_iff_witness :
  let r := NewNonValidatingReader false (bs "ISA*00*x~")
             (mkFileDecl "~" "*" None None None false) in
  let seg := rawSeg (snd (fst (Read r))) in
  Read r = (Returned (seg, None), snd (fst (Read r)), snd (Read r))
  /\ exists e rest,
      Elems seg = e :: rest /\ Data e <> []
      /\ Name seg = string_of_list_byte (Data e).
Proof.
  intros r seg. split; [vm_compute; reflexivity|].
  apply (proj2 (missing_segment_name_iff r) seg (snd (fst (Read r)))
           (snd (Read r))).
  vm_compute. reflexivity.
Defined.

Lemma read_counts_calls_witness :
  let r := NewNonValidatingReader true (bs "ISA*1~" ++ crBytes ++ lfBytes)
             (mkFileDecl "~" "*" None None None false) in
  - 2 ^ 63 <= SegCount (readN 1 r) < 2 ^ 63 - 1
  /\ nthRead 1 r = Returned (zeroRawSeg, Some EOF)
  /\ SegCount (readN 2 r) = SegCount (readN 1 r) + 1.
Proof.
  intros r. split; [vm_compute; split; [discriminate | reflexivity]|].
  split; [vm_compute; reflexivity|].
  apply (proj1 (proj2 read_counts_calls) (readN 1 r)).
  vm_compute. split; [discriminate | reflexivity].
Defined.

(** ** The release byte *)

Lemma HasPrefix_byte c t x : Bytes.HasPrefix (c :: t) [x] = Byte.eqb c x.
Proof.
  unfold Bytes.HasPrefix. simpl. now rewrite andb_true_r.
Qed.

Lemma option_map_add i j (o : option nat) :
  option_map (Nat.add i) (option_map (Nat.add j) o)
  = option_map (Nat.add (i + j)) o.
Proof. destruct o; simpl; f_equal; lia. Qed.

(** The search from position [i] is the search from 0, moved by [i]. *)
Lemma indexWithEscFrom_shift delim esc s :
  forall skip i,
    Strs.indexWithEscFrom s delim esc skip i
    = option_map (Nat.add i) (Strs.indexWithEscFrom s delim esc skip 0).
Proof.
  induction s as [|c s IH]; intros skip i; [reflexivity|].
  cbn [Strs.indexWithEscFrom]. destruct skip as [|k].
  - destruct (length (c :: s) <? length delim)%nat; [reflexivity|].
    destruct (Bytes.HasPrefix (c :: s) esc).
    + rewrite (IH _ (S i)), (IH _ 1%nat), option_map_add.
      f_equal. f_equal. lia.
    + destruct (Bytes.HasPrefix (c :: s) delim); [simpl; f_equal; lia|].
      rewrite (IH _ (S i)), (IH _ 1%nat), option_map_add.
      f_equal. f_equal. lia.
  - rewrite (IH _ (S i)), (IH _ 1%nat), option_map_add.
    f_equal. f_equal. lia.
Qed.

Lemma indexWithEscFrom_bound delim esc s :
  forall skip i m,
    Strs.indexWithEscFrom s delim esc skip i = Some m ->
    (i <= m < i + length s)%nat.
Proof.
  induction s as [|c s IH]; intros skip i m; [discriminate|].
  cbn [Strs.indexWithEscFrom]. simpl length. destruct skip as [|k].
  - destruct (_ <? _)%nat; [discriminate|].
    destruct (Bytes.HasPrefix (c :: s) esc).
    + intros H; apply IH in H. lia.
    + destruct (Bytes.HasPrefix (c :: s) delim).
      * intros H; injection H as <-. lia.
      * intros H; apply IH in H. lia.
  - intros H; apply IH in H. lia.
Qed.

Section Release.
Variables (delim esc : bytes).
Hypothesis delim_bytes : (length delim =? 0)%nat = false.
Hypothesis esc_bytes : (length esc =? 0)%nat = false.

Lemma ByteIndexWithEsc_from s :
  Strs.ByteIndexWithEsc s delim esc = Strs.indexWithEscFrom s delim esc 0 0.
Proof.
  unfold Strs.ByteIndexWithEsc. rewrite delim_bytes, esc_bytes.
  destruct s; reflexivity.
Qed.

Lemma ByteIndexWithEsc_bound s m :
  Strs.ByteIndexWithEsc s delim esc = Some m -> (m < length s)%nat.
Proof.
  rewrite ByteIndexWithEsc_from. intros H.
  apply indexWithEscFrom_bound in H. lia.
Qed.

(** The rounds [ByteSplitWithEsc] allows its loop are enough: more change
    nothing. *)
Lemma splitWithEscLoop_fuel f1 :
  forall f2 s,
    (length s <= f1)%nat -> (length s <= f2)%nat ->
    Strs.splitWithEscLoop f1 s delim esc = Strs.splitWithEscLoop f2 s delim esc.
Proof.
  assert (E : forall f, Strs.splitWithEscLoop f [] delim esc = [[]]).
  { intros [|f]; simpl; trivial.
    unfold Strs.ByteIndexWithEsc. now rewrite delim_bytes. }
  induction f1 as [|f1 IH]; intros f2 s H1 H2.
  - destruct s; [|simpl in H1; lia]. now rewrite !E.
  - destruct f2 as [|f2].
    + destruct s; [|simpl in H2; lia]. now rewrite !E.
    + simpl. destruct (Strs.ByteIndexWithEsc s delim esc) as [m|] eqn:I; trivial.
      apply ByteIndexWithEsc_bound in I.
      assert (0 < length delim)%nat
        by (apply Nat.eqb_neq in delim_bytes; lia).
      f_equal. apply IH; rewrite length_skipn; lia.
Qed.

(** One round of [ByteSplitWithEsc]. *)
Lemma ByteSplitWithEsc_unfold s :
  Strs.ByteSplitWithEsc s delim esc
  = match Strs.ByteIndexWithEsc s delim esc with
    | None => [s]
    | Some m =>
        firstn m s
        :: Strs.ByteSplitWithEsc (skipn (m + length delim) s) delim esc
    end.
Proof.
  unfold Strs.ByteSplitWithEsc. rewrite delim_bytes, esc_bytes. simpl orb.
  cbv iota.
  destruct s as [|c s]; [simpl; unfold Strs.ByteIndexWithEsc;
                         now rewrite delim_bytes|].
  cbn [length Strs.splitWithEscLoop].
  destruct (Strs.ByteIndexWithEsc (c :: s) delim esc) as [m|] eqn:I; trivial.
  assert (0 < length delim)%nat by (apply Nat.eqb_neq in delim_bytes; lia).
  f_equal. apply splitWithEscLoop_fuel; [|lia].
  rewrite length_skipn. simpl length. lia.
Qed.
End Release.

Section OneByte.
Variables (d rel : byte).
Hypothesis release_not_delim : rel <> d.

(** [plain a]: a byte string without delimiter and without release byte. *)
#[local] Abbreviation plain a := (Forall (fun x => x <> d /\ x <> rel) a).
#[local] Abbreviation index s := (Strs.indexWithEscFrom s [d] [rel] 0 0).
#[local] Abbreviation split s := (Strs.ByteSplitWithEsc s [d] [rel]).

Lemma index_plain a rest :
  plain a -> index (a ++ rest) = option_map (Nat.add (length a)) (index rest).
Proof.
  induction 1 as [|c a [Hd Hr] _ IH].
  - simpl. now destruct (Strs.indexWithEscFrom rest [d] [rel] 0 0).
  - cbn [app Strs.indexWithEscFrom].
    rewrite !HasPrefix_byte, !byte_eqb_neq by assumption.
    simpl Nat.ltb. cbv iota.
    rewrite indexWithEscFrom_shift, IH, option_map_add. reflexivity.
Qed.

Lemma index_delim rest : index (d :: rest) = Some 0%nat.
Proof.
  cbn [Strs.indexWithEscFrom].
  rewrite !HasPrefix_byte, byte_eqb_neq by congruence.
  now rewrite Byte.byte_dec_lb.
Qed.

Lemma index_release c rest :
  index (rel :: c :: rest) = option_map (Nat.add 2) (index rest).
Proof.
  cbn [Strs.indexWithEscFrom].
  rewrite HasPrefix_byte, Byte.byte_dec_lb by reflexivity.
  simpl. apply indexWithEscFrom_shift.
Qed.

Lemma split_unfold s :
  split s = match index s with
            | None => [s]
            | Some m => firstn m s :: split (skipn (m + 1) s)
            end.
Proof.
  rewrite ByteSplitWithEsc_unfold, ByteIndexWithEsc_from; reflexivity.
Qed.

Lemma skipn_app_exact {A : Type} (x y : list A) n :
  skipn (length x + n) (x ++ y) = skipn n y.
Proof.
  rewrite skipn_app, skipn_all2 by lia.
  replace (length x + n - length x)%nat with n by lia. reflexivity.
Qed.

(** An unescaped delimiter cuts. *)
Lemma split_at_delim a rest :
  plain a -> split (a ++ d :: rest) = a :: split rest.
Proof.
  intros Ha. rewrite split_unfold, (index_plain _ _ Ha), index_delim.
  cbn [option_map].
  replace (length a + 0 + 1)%nat with (length a + 1)%nat by lia.
  rewrite firstn_app_2, skipn_app_exact. simpl. now rewrite app_nil_r.
Qed.

(** A release byte and the byte after it, whatever it is, stay in the
    piece, and the search goes on behind them. *)
Lemma split_at_release a c rest :
  plain a ->
  split (a ++ rel :: c :: rest) = glueFirst (a ++ [rel; c]) (split rest).
Proof.
  intros Ha.
  rewrite split_unfold, (index_plain _ _ Ha), index_release, option_map_add.
  rewrite (split_unfold rest).
  replace (a ++ rel :: c :: rest) with ((a ++ [rel; c]) ++ rest)
    by (now rewrite <- app_assoc).
  destruct (index rest) as [m|]; simpl; trivial.
  replace (length a + 2 + m)%nat with (length (a ++ [rel; c]) + m)%nat
    by (rewrite length_app; simpl; lia).
  rewrite firstn_app_2.
  replace (length (a ++ [rel; c]) + m + 1)%nat
    with (length (a ++ [rel; c]) + (m + 1))%nat by lia.
  now rewrite skipn_app_exact.
Qed.

Lemma index_release_last : index [rel] = None.
Proof.
  cbn [Strs.indexWithEscFrom].
  rewrite HasPrefix_byte, Byte.byte_dec_lb by reflexivity. reflexivity.
Qed.

Lemma split_release_last a : plain a -> split (a ++ [rel]) = [a ++ [rel]].
Proof.
  intros Ha.
  rewrite split_unfold, (index_plain _ _ Ha), index_release_last. reflexivity.
Qed.

Lemma split_plain a : plain a -> split a = [a].
Proof.
  intros Ha. rewrite split_unfold.
  rewrite <- (app_nil_r a) at 1. rewrite (index_plain _ _ Ha). reflexivity.
Qed.
End OneByte.

(** C3, as stated, fails: a release byte that is itself escaped does not
    escape.  In `A??*B` the first `?` escapes the second, and the `*` right
    after the second `?` cuts. *)
Lemma release_before_delimiter_counterexample :
  Strs.ByteSplitWithEsc (bs "A??*B") (bs "*") (bs "?") = [bs "A??"; bs "B"]
  /\ fst (fst (Read (NewNonValidatingReader false (bs "NM1*A??*B~")
                       (mkFileDecl "~" "*" None None (Some "?"%string) false))))
     = Returned
         (mkRawSeg true "NM1" (Some (bs "NM1*A??*B~"))
            [ mkRawSegElem 0 1 (bs "NM1");
              mkRawSegElem 1 1 (bs "A??");
              mkRawSegElem 2 1 (bs "B") ],
          None)
  /\ ~ (forall d rel a rest,
           rel <> d -> ~ In d a ->
           exists p ps,
             Strs.ByteSplitWithEsc (a ++ rel :: d :: rest) [d] [rel] = p :: ps
             /\ firstn (length a + 2) p = a ++ [rel; d]).
Proof.
  split; [vm_compute; reflexivity|]. split; [vm_compute; reflexivity|].
  intros H.
  destruct (H "*"%byte "?"%byte (bs "A?") (bs "B")) as (p & ps & E & F).
  - discriminate.
  - simpl. intros [C|[C|[]]]; discriminate.
  - vm_compute in E. injection E as <- _. vm_compute in F. discriminate.
Qed.

(** C3, amended.  For each of the three delimiters of a reader (here of one
    byte [d], with the release byte [rel]), a release byte escapes the byte
    that follows it, whatever that byte is: behind a stretch [a] without
    delimiter and release byte, a delimiter cuts; a release byte and the
    byte after it -- a delimiter, which then does not cut, a release byte,
    which then does not escape, or any other -- stay in the piece as they
    are, and the search goes on behind them; a release byte at the very end
    stays as well.  And `NM1*AB?*CD~` with release `?` gives the two entries
    (0,1,NM1) and (1,1,AB?*CD). *)
Theorem release_escapes_next_byte :
  (forall r dl d rel a c rest,
      b dl = [d] -> b (releaseChar r) = [rel] -> rel <> d ->
      Forall (fun x => x <> d /\ x <> rel) a ->
      spec_split r (a ++ d :: rest) dl = a :: spec_split r rest dl
      /\ spec_split r (a ++ rel :: c :: rest) dl
         = glueFirst (a ++ [rel; c]) (spec_split r rest dl)
      /\ spec_split r (a ++ [rel]) dl = [a ++ [rel]]
      /\ spec_split r a dl = [a])
  /\ (forall eofAsDelim,
         fst (fst (Read (NewNonValidatingReader eofAsDelim (bs "NM1*AB?*CD~")
                           (mkFileDecl "~" "*" None None (Some "?"%string)
                              false))))
         = Returned
             (mkRawSeg true "NM1" (Some (bs "NM1*AB?*CD~"))
                [ mkRawSegElem 0 1 (bs "NM1");
                  mkRawSegElem 1 1 (bs "AB?*CD") ],
              None)).
Proof.
  split.
  - intros r dl d rel a c rest Hd Hr Hne Ha. unfold spec_split.
    rewrite Hd, Hr. repeat split.
    + now apply split_at_delim.
    + now apply split_at_release.
    + now apply split_release_last.
    + now apply split_plain.
  - intros [|]; vm_compute; reflexivity.
Qed.

Lemma release_escapes_next_byte_witness :
  let r := NewNonValidatingReader false (bs "NM1*AB?*CD~")
             (mkFileDecl "~" "*" None None (Some "?"%string) false) in
  let d := "*"%byte in
  let rel := "?"%byte in
  (b (elemDelim r) = [d] /\ b (releaseChar r) = [rel] /\ rel <> d
   /\ Forall (fun x => x <> d /\ x <> rel) (bs "AB"))
  /\ (spec_split r (bs "AB" ++ d :: bs "CD") (elemDelim r)
      = bs "AB" :: spec_split r (bs "CD") (elemDelim r)
      /\ spec_split r (bs "AB" ++ rel :: d :: bs "CD") (elemDelim r)
         = glueFirst (bs "AB" ++ [rel; d]) (spec_split r (bs "CD") (elemDelim r))
      /\ spec_split r (bs "AB" ++ [rel]) (elemDelim r) = [bs "AB" ++ [rel]]
      /\ spec_split r (bs "AB") (elemDelim r) = [bs "AB"]).
Proof.
  intros r d rel.
  assert (Hne : rel <> d) by discriminate.
  assert (Ha : Forall (fun x => x <> d /\ x <> rel) (bs "AB"))
    by (repeat constructor; discriminate).
  split; [repeat split; trivial|].
  apply (proj1 release_escapes_next_byte r (elemDelim r) d rel (bs "AB") d
           (bs "CD")); trivial.
Defined.

(** * Further properties of the reader *)

(** ** Counting runes *)

Lemma byteZ_lf c : (byteZ c =? 10) = Byte.eqb c x0a.
Proof. destruct c; reflexivity. Qed.

Lemma byteZ_cr c : (byteZ c =? 13) = Byte.eqb c x0d.
Proof. destruct c; reflexivity. Qed.

Lemma DecodeRune_ascii c rest :
  byteZ c < 128 -> Utf8.DecodeRune (c :: rest) = (byteZ c, 1%nat).
Proof.
  intros H. unfold Utf8.DecodeRune. simpl length.
  change (S (length rest) <? 1)%nat with false. cbv iota zeta.
  change (Utf8.at_ (c :: rest) 0) with (byteZ c).
  unfold Utf8.first.
  replace (byteZ c <? 128) with true by (symmetry; now apply Z.ltb_lt).
  reflexivity.
Qed.

Lemma runeCountLoop_ascii (t : bytes) :
  Forall (fun c => byteZ c < 128) t ->
  forall fuel n o,
    (length t < fuel)%nat ->
    runeCountLoop fuel t n o
    = (n + Z.of_nat (length t), o && forallb isCRLF t).
Proof.
  induction 1 as [|c t Hc _ IH]; intros fuel n o Hf;
    (destruct fuel as [|f]; [simpl in Hf; lia|]).
  - simpl. rewrite andb_true_r. f_equal. lia.
  - simpl length in Hf. cbn [runeCountLoop].
    rewrite (DecodeRune_ascii _ _ Hc).
    replace (byteZ c =? Utf8.RuneError) with false
      by (symmetry; apply Z.eqb_neq; unfold Utf8.RuneError; lia).
    cbn [skipn]. rewrite IH by lia.
    rewrite byteZ_lf, byteZ_cr. cbn [forallb length]. unfold isCRLF.
    f_equal; [lia|].
    destruct (Byte.eqb c x0a), (Byte.eqb c x0d), o; reflexivity.
Qed.

(** X1.  On a token of ASCII bytes [runeCountAndHasOnlyCRLF] counts one rune
    per byte and answers "only CR/LF" exactly when every byte is a CR or a
    LF. *)
Theorem rune_count_ascii (t : bytes) :
  Forall (fun c => byteZ c < 128) t ->
  runeCountAndHasOnlyCRLF t = (Z.of_nat (length t), forallb isCRLF t).
Proof.
  intros H. unfold runeCountAndHasOnlyCRLF.
  rewrite runeCountLoop_ascii; trivial. lia.
Qed.

Lemma rune_count_ascii_witness :
  Forall (fun c => byteZ c < 128) (bs "ISA*1~")
  /\ runeCountAndHasOnlyCRLF (bs "ISA*1~")
     = (Z.of_nat (length (bs "ISA*1~")), forallb isCRLF (bs "ISA*1~")).
Proof.
  assert (H : Forall (fun c => byteZ c < 128) (bs "ISA*1~"))
    by (repeat constructor).
  split; [exact H|]. apply (rune_count_ascii (bs "ISA*1~") H).
Defined.

Lemma runeCountLoop_bounds fuel :
  forall t n o,
    let res := runeCountLoop fuel t n o in
    n <= fst res <= n + Z.of_nat (length t)
    /\ (snd res = true -> o = true)
    /\ (o = true -> snd res = false -> n < fst res).
Proof.
  induction fuel as [|f IH]; intros t n o; cbn [runeCountLoop].
  - simpl. repeat split; try lia; congruence.
  - destruct t as [|c t].
    + simpl. repeat split; try lia; congruence.
    + pose proof (DecodeRune_size (c :: t)) as Hs.
      destruct (Utf8.DecodeRune (c :: t)) as [r size].
      simpl snd in Hs. specialize (Hs ltac:(discriminate)).
      destruct (r =? Utf8.RuneError).
      * simpl. repeat split; try lia; congruence.
      * match goal with
        | |- context [runeCountLoop f ?t' ?n' ?o'] =>
            specialize (IH t' n' o')
        end.
        cbv zeta in IH. destruct IH as (Hb & Ht & Hf).
        rewrite length_skipn in Hb. simpl length in *.
        repeat split; try lia.
        intros E. apply Ht in E.
        destruct (negb (r =? 10) && negb (r =? 13)); congruence.
Qed.

(** X2.  The rune count of a token is between 0 and its length in bytes,
    and a token that is not skipped has at least one rune: no empty token
    is ever handed to [readToken]. *)
Theorem rune_count_bounds (t : bytes) :
  0 <= fst (runeCountAndHasOnlyCRLF t) <= Z.of_nat (length t)
  /\ (snd (runeCountAndHasOnlyCRLF t) = false ->
      1 <= fst (runeCountAndHasOnlyCRLF t) /\ t <> []).
Proof.
  unfold runeCountAndHasOnlyCRLF.
  pose proof (runeCountLoop_bounds (S (length t)) t 0 true) as H.
  cbv zeta in H. destruct H as (Hb & _ & Hf). split; [lia|].
  intros E. specialize (Hf eq_refl E). split; [lia|].
  intros ->. vm_compute in Hf. discriminate.
Qed.

(** ** The scanning loop, token by token *)

Lemma wrap64_range z : - 2 ^ 63 <= wrap64 z < 2 ^ 63.
Proof.
  unfold wrap64.
  pose proof (Z.mod_pos_bound (z + 2 ^ 63) (2 ^ 64) ltac:(lia)). lia.
Qed.

Lemma wrap64_add_l a c : wrap64 (wrap64 a + c) = wrap64 (a + c).
Proof.
  unfold wrap64. f_equal.
  replace ((a + 2 ^ 63) mod 2 ^ 64 - 2 ^ 63 + c + 2 ^ 63)
    with ((a + 2 ^ 63) mod 2 ^ 64 + c) by lia.
  rewrite Zplus_mod_idemp_l. f_equal. lia.
Qed.

Lemma Scan_some s t s' :
  Ios.Scan s = (Some t, s') ->
  remaining s = t :: remaining s' /\ Ios.ioErr s' = Ios.ioErr s.
Proof.
  unfold Ios.Scan, remaining. destruct s as [tk io late fl]; simpl.
  destruct tk as [|x tk]; simpl.
  - destruct io as [e|]; [|discriminate].
    destruct late as [|y late]; [discriminate|].
    intros H; injection H as <- <-; simpl. auto.
  - intros H; injection H as <- <-; simpl. auto.
Qed.

Lemma Scan_none s s' :
  Ios.Scan s = (None, s') ->
  remaining s = [] /\ remaining s' = [] /\ Ios.ioErr s' = Ios.ioErr s.
Proof.
  unfold Ios.Scan, remaining. destruct s as [tk io late fl]; simpl.
  destruct tk as [|x tk]; simpl; [|discriminate].
  destruct io as [e|].
  - destruct late as [|y late]; [|discriminate].
    intros H; injection H as <-; simpl. auto.
  - intros H; injection H as <-; simpl. auto.
Qed.

(** What the scanning loop of [Read] does to the scanner and to the rune
    positions: it takes the tokens [scanned] off the scanner, all skipped
    but the last when it ends on a token, and moves [runeEnd] by their
    runes. *)
Lemma nextToken_scan fuel :
  forall r o r1,
    (Ios.pending (scanner r) < fuel)%nat ->
    nextToken fuel r = (o, r1) ->
    Ios.ioErr (scanner r1) = Ios.ioErr (scanner r)
    /\ exists scanned,
        remaining (scanner r) = scanned ++ remaining (scanner r1)
        /\ (- 2 ^ 63 <= runeEnd r < 2 ^ 63 ->
            runeEnd r1 = wrap64 (runeEnd r + totalRunes scanned))
        /\ match o with
           | Some t =>
               exists skipped,
               scanned = skipped ++ [t]
               /\ forallb skips skipped = true
               /\ skips t = false
               /\ runeEnd r1
                  = wrap64 (runeBegin r1 + fst (runeCountAndHasOnlyCRLF t))
               /\ (- 2 ^ 63 <= runeEnd r < 2 ^ 63 ->
                   runeBegin r1 = wrap64 (runeEnd r + totalRunes skipped))
           | None =>
               forallb skips scanned = true /\ remaining (scanner r1) = []
           end.
Proof.
  induction fuel as [|f IH]; intros r o r1 Hf; [lia|]. simpl.
  destruct (Ios.Scan (scanner r)) as [[tok|] sc] eqn:S.
  - pose proof (Scan_pending _ _ _ S) as Hp.
    apply Scan_some in S as (Hrem & Hio).
    destruct (runeCountAndHasOnlyCRLF tok) as [count only] eqn:RC.
    destruct only.
    + intros H. apply IH in H; [|simpl; lia].
      simpl in H. destruct H as (Hio' & scanned & Hs & Hre & Ho).
      split; [congruence|]. exists (tok :: scanned).
      split; [rewrite Hrem, Hs; reflexivity|].
      pose proof (wrap64_range (runeEnd r + count)) as Hw.
      split.
      * intros _. rewrite (Hre Hw), wrap64_add_l. f_equal.
        simpl. rewrite RC. simpl. lia.
      * destruct o as [t|].
        -- destruct Ho as (skipped & -> & Hsk & Ht & He & Hb).
           exists (tok :: skipped). repeat split; trivial.
           ++ simpl. unfold skips at 1. now rewrite RC.
           ++ intros _. rewrite (Hb Hw), wrap64_add_l. f_equal.
              simpl. rewrite RC. simpl. lia.
        -- destruct Ho as (Hsk & He). split; trivial.
           simpl. unfold skips at 1. now rewrite RC.
    + intros H; injection H as <- <-. simpl.
      split; trivial. exists [tok]. split; [exact Hrem|].
      split; [intros _; simpl; rewrite RC; simpl; f_equal; lia|].
      exists []. repeat split; trivial.
      * unfold skips. now rewrite RC.
      * now rewrite RC.
      * intros Hr. simpl. rewrite Z.add_0_r. symmetry. now apply wrap64_small.
  - apply Scan_none in S as (Hrem & Hrem' & Hio).
    intros H; injection H as <- <-. simpl.
    split; trivial. exists []. rewrite Hrem, Hrem'. repeat split.
    intros Hr. simpl. rewrite Z.add_0_r. symmetry. now apply wrap64_small.
Qed.

Lemma readToken_reader r token :
  exists seg, snd (fst (readToken r token)) = with_rawSeg r seg.
Proof.
  pose proof (readToken_cases r token) as C. cbv zeta in C.
  destruct (dropSegDelim r token) as [noSegDelim|];
    [|rewrite C; simpl; eexists; reflexivity].
  destruct (appendElems r noSegDelim []) as [|e rest];
    [rewrite C; simpl; eexists; reflexivity|].
  destruct (Data e); rewrite C; simpl; eexists; reflexivity.
Qed.

(** The reader [Read] leaves: the one the scanning loop leaves, with the
    count moved and, when a token was handed to [readToken], another
    content of the segment buffer. *)
Lemma Read_reader r :
  let r1 := snd (nextToken (S (Ios.pending (scanner r))) r) in
  exists seg,
    snd (fst (Read r))
    = with_rawSeg (with_segCount r1 (wrap64 (segCount r1 + 1))) seg.
Proof.
  rewrite Read_unfold. cbv zeta.
  destruct (nextToken _ r) as [token r1]; simpl.
  destruct (Ios.Err (scanner r1)); [exists (rawSeg r1); reflexivity|].
  destruct token as [token|]; [|exists (rawSeg r1); reflexivity].
  destruct (readToken_reader (with_segCount r1 (wrap64 (segCount r1 + 1))) token)
    as (seg & E).
  exists seg. rewrite <- E.
  destruct (readToken _ token) as [[[[x|]|] r3] o]; reflexivity.
Qed.

(** [Read] never changes the delimiters. *)
Lemma Read_sameConfig r : sameConfig r (snd (fst (Read r))).
Proof.
  destruct (Read_reader r) as (seg & ->).
  destruct (nextToken _ r) as [o r1] eqn:N. simpl.
  apply nextToken_keeps in N as (Hc & _). exact Hc.
Qed.

Lemma readN_sameConfig n : forall r, sameConfig r (readN n r).
Proof.
  induction n as [|n IH]; intros r; simpl; [apply sameConfig_refl|].
  eapply sameConfig_trans; [apply Read_sameConfig | apply IH].
Qed.

(** ** The segments, one per token that is not skipped *)

Lemma segmentOf_config r1 r2 token :
  sameConfig r1 r2 -> segmentOf r1 token = segmentOf r2 token.
Proof.
  intros Hc. unfold segmentOf.
  pose proof (readToken_cases r1 token) as C1.
  pose proof (readToken_cases r2 token) as C2. cbv zeta in C1, C2.
  rewrite <- (dropSegDelim_config _ _ _ Hc) in C2.
  destruct (dropSegDelim r1 token) as [noSegDelim|]; [|now rewrite C1, C2].
  rewrite <- (appendElems_config _ _ _ _ Hc) in C2.
  destruct (appendElems r1 noSegDelim []) as [|e rest]; [now rewrite C1, C2|].
  destruct (Data e); now rewrite C1, C2.
Qed.

(** What [Read] returns, from what its scanning loop ends on, when the
    scanner has no error to report. *)
Lemma Read_result r o r1 :
  nextToken (S (Ios.pending (scanner r))) r = (o, r1) ->
  Ios.Err (scanner r1) = None ->
  fst (fst (Read r))
  = match o with
    | Some token => segmentOf r token
    | None => Returned (zeroRawSeg, Some EOF)
    end.
Proof.
  intros N E. rewrite Read_unfold, N. simpl. rewrite E.
  destruct o as [token|]; trivial.
  apply nextToken_keeps in N as (Hc & _).
  rewrite (segmentOf_config r (with_segCount r1 (wrap64 (segCount r1 + 1))))
    by exact Hc.
  unfold segmentOf.
  destruct (readToken _ token) as [[[[x|]|] r3] out]; reflexivity.
Qed.

Lemma Read_scanner r :
  scanner (snd (fst (Read r)))
  = scanner (snd (nextToken (S (Ios.pending (scanner r))) r)).
Proof. destruct (Read_reader r) as (seg & ->). reflexivity. Qed.

Lemma filter_skipped l :
  forallb skips l = true -> filter (fun t => negb (skips t)) l = [].
Proof.
  induction l as [|t l IH]; simpl; trivial.
  intros H. apply andb_prop in H as [-> H]. simpl. auto.
Qed.

Lemma remaining_no_error s : Ios.ioErr s = None -> remaining s = Ios.toks s.
Proof. unfold remaining. intros ->. apply app_nil_r. Qed.

Lemma Err_no_error s : Ios.ioErr s = None -> Ios.Err s = None.
Proof. unfold Ios.Err. intros ->. now destruct (Ios.failed s). Qed.

(** X3.  On a stream that ends without error, the calls of [Read] hand out
    the tokens that are not skipped, one per call and in order -- the n-th
    call (from 0) returns what [readToken] makes of the n-th of them -- and
    once they are used up every call returns EOF. *)
Theorem read_hands_out_tokens_in_order n :
  forall r,
    Ios.ioErr (scanner r) = None ->
    nthRead n r
    = match nth_error
              (filter (fun t => negb (skips t)) (Ios.toks (scanner r))) n with
      | Some token => segmentOf r token
      | None => Returned (zeroRawSeg, Some EOF)
      end.
Proof.
  unfold nthRead.
  induction n as [|n IH]; intros r Hio;
    destruct (nextToken (S (Ios.pending (scanner r))) r) as [o r1] eqn:N;
    pose proof (nextToken_scan _ _ _ _ (Nat.lt_succ_diag_r _) N)
      as (Hio1 & scanned & Hrem & _ & Ho);
    rewrite Hio in Hio1;
    rewrite (remaining_no_error _ Hio), (remaining_no_error _ Hio1) in Hrem;
    pose proof (Read_scanner r) as Hsc; rewrite N in Hsc; simpl in Hsc.
  - simpl readN. rewrite (Read_result _ _ _ N (Err_no_error _ Hio1)), Hrem.
    destruct o as [t|].
    + destruct Ho as (skipped & -> & Hsk & Ht & _).
      rewrite <- app_assoc, filter_app, (filter_skipped _ Hsk). simpl.
      now rewrite Ht.
    + destruct Ho as (Hsk & Hnil).
      rewrite (remaining_no_error _ Hio1) in Hnil.
      now rewrite Hnil, app_nil_r, (filter_skipped _ Hsk).
  - simpl readN. rewrite IH by (rewrite Hsc; exact Hio1).
    rewrite Hsc, Hrem.
    assert (Hcfg : forall t, segmentOf (snd (fst (Read r))) t = segmentOf r t)
      by (intros t; symmetry; apply segmentOf_config, Read_sameConfig).
    destruct o as [t|].
    + destruct Ho as (skipped & -> & Hsk & Ht & _).
      rewrite <- app_assoc, filter_app, (filter_skipped _ Hsk). simpl.
      rewrite Ht. simpl.
      destruct (nth_error _ n); [apply Hcfg | reflexivity].
    + destruct Ho as (Hsk & Hnil).
      rewrite (remaining_no_error _ Hio1) in Hnil.
      rewrite Hnil, app_nil_r, (filter_skipped _ Hsk). simpl.
      now destruct n.
Qed.

Lemma read_hands_out_tokens_in_order_witness :
  let r := NewNonValidatingReader true
             (bs "ISA*1~" ++ crBytes ++ lfBytes ++ bs "GS*2~")
             (mkFileDecl "~" "*" None None None false) in
  Ios.ioErr (scanner r) = None
  /\ nthRead 1 r
     = match nth_error
               (filter (fun t => negb (skips t)) (Ios.toks (scanner r))) 1 with
       | Some token => segmentOf r token
       | None => Returned (zeroRawSeg, Some EOF)
       end.
Proof.
  intros r. split; [reflexivity|].
  apply (read_hands_out_tokens_in_order 1 r). reflexivity.
Defined.

(** ** End of input *)

Lemma forallb_skips_app l1 l2 :
  forallb skips (l1 ++ l2) = true ->
  forallb skips l1 = true /\ forallb skips l2 = true.
Proof. rewrite forallb_app. apply andb_prop. Qed.

(** X4.  [Read] returns EOF exactly when the stream ended without error and
    every token the scanner still holds is one the scanning loop skips: no
    other token is ever dropped silently at the end. *)
Theorem read_eof_iff r :
  fst (fst (Read r)) = Returned (zeroRawSeg, Some EOF)
  <-> Ios.ioErr (scanner r) = None
      /\ forallb skips (Ios.toks (scanner r)) = true.
Proof.
  destruct (nextToken (S (Ios.pending (scanner r))) r) as [o r1] eqn:N.
  pose proof (nextToken_scan _ _ _ _ (Nat.lt_succ_diag_r _) N)
    as (Hio & scanned & Hrem & _ & Ho).
  split.
  - rewrite Read_unfold, N. simpl.
    destruct (Ios.Err (scanner r1)) as [x|] eqn:E; [discriminate|].
    destruct o as [t|].
    + destruct (readToken _ t) as [[[[x|]|] r3] out] eqn:T; try discriminate.
      apply readToken_error in T as (-> & _). discriminate.
    + intros _. destruct Ho as (Hsk & Hnil).
      apply nextToken_ends in N as (_ & He); [|lia].
      assert (Hn : Ios.ioErr (scanner r1) = None).
      { destruct He as [He|Hf]; trivial.
        unfold Ios.Err in E. now rewrite Hf in E. }
      rewrite Hn in Hio. split; [congruence|].
      rewrite remaining_no_error in Hrem by congruence.
      rewrite Hrem. rewrite forallb_app, Hsk, Hnil. reflexivity.
  - intros (Hn & Hall).
    rewrite Hn in Hio.
    rewrite (Read_result _ _ _ N (Err_no_error _ Hio)).
    destruct o as [t|]; trivial.
    destruct Ho as (skipped & -> & _ & Ht & _).
    rewrite (remaining_no_error _ Hn) in Hrem. rewrite Hrem in Hall.
    apply forallb_skips_app in Hall as (Hall & _).
    apply forallb_skips_app in Hall as (_ & Hall).
    simpl in Hall. rewrite Ht in Hall. discriminate.
Qed.

(** ** Panics *)

Lemma dropSegDelim_panics r token :
  dropSegDelim r token = Panicked
  <-> (length token < length (b (segDelim r)))%nat
      \/ strptr (segDelim r) = None.
Proof.
  unfold dropSegDelim.
  destruct (length token <? length (b (segDelim r)))%nat eqn:L.
  - apply Nat.ltb_lt in L. tauto.
  - apply Nat.ltb_ge in L.
    destruct (strptr (segDelim r)) as [sd|].
    + split; [|intros [H|H]; [lia | discriminate]].
      destruct (_ && _); discriminate.
    + tauto.
Qed.

Lemma segmentOf_panics r token :
  segmentOf r token = Panicked <-> dropSegDelim r token = Panicked.
Proof.
  unfold segmentOf.
  pose proof (readToken_cases r token) as C. cbv zeta in C.
  destruct (dropSegDelim r token) as [noSegDelim|];
    [|rewrite C; tauto].
  destruct (appendElems r noSegDelim []) as [|e rest];
    [rewrite C; split; discriminate|].
  destruct (Data e); rewrite C; split; discriminate.
Qed.

Lemma Read_panics r :
  fst (fst (Read r)) = Panicked
  <-> exists token, processes r token /\ dropSegDelim r token = Panicked.
Proof.
  destruct (nextToken (S (Ios.pending (scanner r))) r) as [o r1] eqn:N.
  split.
  - destruct (Ios.Err (scanner r1)) as [x|] eqn:E.
    + rewrite Read_unfold, N. simpl. rewrite E. discriminate.
    + rewrite (Read_result _ _ _ N E).
      destruct o as [t|]; [|discriminate].
      intros H. apply segmentOf_panics in H.
      exists t. split; trivial. exists r1. auto.
  - intros (t & (r1' & N' & E) & D).
    rewrite N in N'. injection N' as -> <-.
    rewrite (Read_result _ _ _ N E). now apply segmentOf_panics.
Qed.

(** X5.  [Read] panics exactly when it goes on with a token that is shorter
    than the segment delimiter (the slice [token[:len(token)-len(segDelim)]]
    is out of range) or when the reader has no segment delimiter string to
    dereference. *)
Theorem read_panics_iff r :
  fst (fst (Read r)) = Panicked
  <-> exists token,
      processes r token
      /\ ((length token < length (b (segDelim r)))%nat
          \/ strptr (segDelim r) = None).
Proof.
  rewrite Read_panics.
  split; intros (t & P & D); exists t; (split; [exact P|]);
    now apply dropSegDelim_panics.
Qed.

Lemma not_skipped_nonempty t : skips t = false -> t <> [].
Proof. intros H ->. vm_compute in H. discriminate. Qed.

Lemma processes_not_skipped r token : processes r token -> skips token = false.
Proof.
  intros (r1 & N & _).
  apply nextToken_scan in N as (_ & scanned & _ & _ & skipped & _ & _ & H & _);
    [exact H | lia].
Qed.

(** X6.  A reader whose segment delimiter is set and has at most one byte
    never panics, however often [Read] is called: the tokens [readToken]
    gets are never empty. *)
Theorem read_never_panics r :
  strptr (segDelim r) <> None ->
  (length (b (segDelim r)) <= 1)%nat ->
  forall n, nthRead n r <> Panicked.
Proof.
  intros Hs Hl n. unfold nthRead. intros H.
  apply Read_panics in H as (t & P & D).
  destruct (readN_sameConfig n r) as (Hseg & _).
  apply dropSegDelim_panics in D. rewrite <- Hseg in D.
  apply processes_not_skipped, not_skipped_nonempty in P.
  destruct D as [D|D]; [|contradiction].
  destruct t; [congruence | simpl in D; lia].
Qed.

Lemma read_never_panics_witness :
  let r := NewNonValidatingReader true (bs "ISA*1~GS")
             (mkFileDecl "~" "*" None None None false) in
  strptr (segDelim r) <> None
  /\ (length (b (segDelim r)) <= 1)%nat
  /\ forall n, nthRead n r <> Panicked.
Proof.
  intros r.
  assert (Hs : strptr (segDelim r) <> None) by discriminate.
  assert (Hl : (length (b (segDelim r)) <= 1)%nat) by (simpl; lia).
  split; [exact Hs|]. split; [exact Hl|].
  apply (read_never_panics r Hs Hl).
Defined.

(** ** Rune positions *)

(** X7.  When [Read] goes on with a token, the rune positions it leaves
    span that token: [RuneBegin] is the old [RuneEnd] moved over the tokens
    skipped before it, and [RuneEnd] is [RuneBegin] plus the runes of the
    token (in 64-bit arithmetic); and the scanner has lost exactly the
    skipped tokens and that one. *)
Theorem rune_positions_span_token r token :
  processes r token ->
  - 2 ^ 63 <= RuneEnd r < 2 ^ 63 ->
  let r' := snd (fst (Read r)) in
  exists skipped,
    remaining (scanner r) = skipped ++ token :: remaining (scanner r')
    /\ forallb skips skipped = true
    /\ RuneBegin r' = wrap64 (RuneEnd r + totalRunes skipped)
    /\ RuneEnd r' = wrap64 (RuneBegin r' + fst (runeCountAndHasOnlyCRLF token)).
Proof.
  intros (r1 & N & E) Hr r'. unfold RuneBegin, RuneEnd in *.
  pose proof (Read_reader r) as (seg & Hr'). rewrite N in Hr'. simpl in Hr'.
  fold r' in Hr'.
  apply nextToken_scan in N as (_ & scanned & Hrem & _ & skipped & -> & Hsk
                                 & _ & He & Hb); [|lia].
  exists skipped. rewrite Hr'. simpl.
  rewrite <- app_assoc in Hrem. repeat split; auto.
Qed.

Lemma rune_positions_span_token_witness :
  let token := bs "ISA*1" ++ lfBytes in
  let r := NewNonValidatingReader true (lfBytes ++ token)
             (mkFileDecl (string_of_list_byte lfBytes) "*" None None None
                false) in
  let r' := snd (fst (Read r)) in
  (processes r token /\ - 2 ^ 63 <= RuneEnd r < 2 ^ 63)
  /\ exists skipped,
      remaining (scanner r) = skipped ++ token :: remaining (scanner r')
      /\ forallb skips skipped = true
      /\ RuneBegin r' = wrap64 (RuneEnd r + totalRunes skipped)
      /\ RuneEnd r'
         = wrap64 (RuneBegin r' + fst (runeCountAndHasOnlyCRLF token)).
Proof.
  intros token r r'.
  assert (P : processes r token)
    by (exists (snd (nextToken (S (Ios.pending (scanner r))) r));
        split; vm_compute; reflexivity).
  assert (R : - 2 ^ 63 <= RuneEnd r < 2 ^ 63)
    by (vm_compute; split; [discriminate | reflexivity]).
  split; [split; [exact P | exact R]|].
  apply (rune_positions_span_token r token P R).
Defined.

(** ** Splitting loses nothing *)

Lemma HasPrefix_cut s p :
  Bytes.HasPrefix s p = true -> s = p ++ skipn (length p) s.
Proof.
  unfold Bytes.HasPrefix. intros H. apply andb_prop in H as [_ H].
  apply bytes_eqb_eq in H. rewrite <- H at 1. symmetry. apply firstn_skipn.
Qed.

Lemma cut_join s sep m :
  Bytes.HasPrefix (skipn m s) sep = true ->
  firstn m s ++ sep ++ skipn (m + length sep) s = s.
Proof.
  intros H. apply HasPrefix_cut in H.
  rewrite skipn_skipn in H. rewrite (Nat.add_comm m), <- H.
  apply firstn_skipn.
Qed.

Lemma indexFrom_sound sep s :
  forall i m,
    Bytes.indexFrom s sep i = Some m ->
    (i <= m)%nat /\ Bytes.HasPrefix (skipn (m - i) s) sep = true.
Proof.
  induction s as [|c s IH]; intros i m; cbn [Bytes.indexFrom].
  - destruct (Bytes.HasPrefix [] sep) eqn:P; [|discriminate].
    intros H; injection H as <-. rewrite Nat.sub_diag. auto.
  - destruct (Bytes.HasPrefix (c :: s) sep) eqn:P.
    + intros H; injection H as <-. rewrite Nat.sub_diag. auto.
    + intros H. apply IH in H as (Hle & H). split; [lia|].
      replace (m - i)%nat with (S (m - S i)) by lia. exact H.
Qed.

Lemma indexWithEscFrom_sound delim esc s :
  forall skip i m,
    Strs.indexWithEscFrom s delim esc skip i = Some m ->
    (i <= m)%nat /\ Bytes.HasPrefix (skipn (m - i) s) delim = true.
Proof.
  induction s as [|c s IH]; intros skip i m; [discriminate|].
  cbn [Strs.indexWithEscFrom].
  assert (Step : forall k,
             Strs.indexWithEscFrom s delim esc k (S i) = Some m ->
             (i <= m)%nat
             /\ Bytes.HasPrefix (skipn (m - i) (c :: s)) delim = true).
  { intros k H. apply IH in H as (Hle & H). split; [lia|].
    replace (m - i)%nat with (S (m - S i)) by lia. exact H. }
  destruct skip as [|k]; [|apply Step].
  destruct (_ <? _)%nat; [discriminate|].
  destruct (Bytes.HasPrefix (c :: s) esc); [apply Step|].
  destruct (Bytes.HasPrefix (c :: s) delim) eqn:P; [|apply Step].
  intros H; injection H as <-. rewrite Nat.sub_diag. auto.
Qed.

Lemma ByteIndexWithEsc_sound s delim esc m :
  Strs.ByteIndexWithEsc s delim esc = Some m ->
  Bytes.HasPrefix (skipn m s) delim = true.
Proof.
  unfold Strs.ByteIndexWithEsc.
  destruct (length delim =? 0)%nat eqn:D.
  - intros H; injection H as <-. apply Nat.eqb_eq in D.
    destruct delim; [|discriminate]. reflexivity.
  - destruct (length s =? 0)%nat; [discriminate|].
    destruct (length esc =? 0)%nat; intros H.
    + apply indexFrom_sound in H as (_ & H). now rewrite Nat.sub_0_r in H.
    + apply indexWithEscFrom_sound in H as (_ & H).
      now rewrite Nat.sub_0_r in H.
Qed.

Lemma joinBytes_cons sep x l :
  l <> [] -> joinBytes sep (x :: l) = x ++ sep ++ joinBytes sep l.
Proof. destruct l; [congruence | reflexivity]. Qed.

Lemma splitLoop_join sep fuel :
  forall s, joinBytes sep (Bytes.splitLoop fuel s sep) = s.
Proof.
  induction fuel as [|f IH]; intros s; simpl; trivial.
  destruct (Bytes.Index s sep) as [m|] eqn:I; trivial.
  rewrite joinBytes_cons by apply splitLoop_nonempty.
  rewrite IH. apply cut_join.
  apply indexFrom_sound in I as (_ & I). now rewrite Nat.sub_0_r in I.
Qed.

Lemma splitWithEscLoop_join delim esc fuel :
  forall s, joinBytes delim (Strs.splitWithEscLoop fuel s delim esc) = s.
Proof.
  induction fuel as [|f IH]; intros s; simpl; trivial.
  destruct (Strs.ByteIndexWithEsc s delim esc) as [m|] eqn:I; trivial.
  rewrite joinBytes_cons by apply splitWithEscLoop_nonempty.
  rewrite IH. apply cut_join. now apply ByteIndexWithEsc_sound in I.
Qed.

Lemma joinBytes_nil_sep x l : joinBytes [] (x :: l) = x ++ joinBytes [] l.
Proof. destruct l; simpl; trivial. now rewrite app_nil_r. Qed.

Lemma explode_join fuel :
  forall s, joinBytes [] (Bytes.explode fuel s) = s.
Proof.
  induction fuel as [|f IH]; intros [|c s]; trivial.
  cbn [Bytes.explode]. rewrite joinBytes_nil_sep, IH. apply firstn_skipn.
Qed.

(** The pieces of a split, put together again with the delimiter, are the
    bytes that were split: release bytes are kept, nothing is dropped. *)
Lemma ByteSplitWithEsc_join s delim esc :
  joinBytes delim (Strs.ByteSplitWithEsc s delim esc) = s.
Proof.
  unfold Strs.ByteSplitWithEsc.
  destruct ((length delim =? 0)%nat || (length esc =? 0)%nat).
  - unfold Bytes.Split. destruct delim.
    + apply explode_join.
    + apply splitLoop_join.
  - apply splitWithEscLoop_join.
Qed.

Section Rejoin.
Variable r : NonValidatingReader.

Lemma rejoin_cons2 e e' l :
  rejoin r (e :: e' :: l) = Data e ++ separator r e e' ++ rejoin r (e' :: l).
Proof. reflexivity. Qed.

Lemma chained_cons2 e e' l :
  chained (e :: e' :: l) <-> follows e e' /\ chained (e' :: l).
Proof. reflexivity. Qed.

(** Two runs of entries put one after the other. *)
Lemma rejoin_snoc l e e' l2 :
  rejoin r ((l ++ [e]) ++ e' :: l2)
  = rejoin r (l ++ [e]) ++ separator r e e' ++ rejoin r (e' :: l2).
Proof.
  induction l as [|x l IH]; [reflexivity|].
  destruct l as [|y l]; cbn [app] in *.
  - rewrite !rejoin_cons2. change (rejoin r [e]) with (Data e).
    now rewrite <- !app_assoc.
  - rewrite !(rejoin_cons2 x y), IH. now rewrite <- !app_assoc.
Qed.

Lemma chained_snoc l e e' l2 :
  chained (l ++ [e]) -> follows e e' -> chained (e' :: l2) ->
  chained ((l ++ [e]) ++ e' :: l2).
Proof.
  induction l as [|x l IH]; intros H1 Hf H2; [simpl; auto|].
  destruct l as [|y l]; cbn [app] in *.
  - apply chained_cons2 in H1 as (Hxy & _).
    apply chained_cons2. split; trivial. apply chained_cons2. auto.
  - apply chained_cons2 in H1 as (Hxy & Hc).
    apply chained_cons2. split; trivial. apply (IH Hc Hf H2).
Qed.

(** The components of one repetition. *)
Lemma components_rejoin i pieces :
  forall j,
    0 <= j ->
    let entries := map (fun jc => mkRawSegElem i (fst jc + 1) (snd jc))
                     (enumerate j pieces) in
    rejoin r entries = joinBytes (b (compDelim r)) pieces
    /\ chained entries.
Proof.
  induction pieces as [|p pieces IH]; intros j Hj; [simpl; auto|].
  destruct pieces as [|q pieces]; [simpl; auto|].
  specialize (IH (j + 1) ltac:(lia)). cbv zeta in *.
  destruct IH as (IHr & IHc).
  cbn [enumerate map fst snd] in *. rewrite rejoin_cons2, IHr.
  split.
  - unfold separator. cbn [ElemIndex CompIndex Data].
    rewrite Z.eqb_refl.
    replace (j + 1 + 1 =? 1) with false by (symmetry; apply Z.eqb_neq; lia).
    reflexivity.
  - apply chained_cons2. split; trivial.
    left. simpl. auto.
Qed.

Lemma spec_components_rejoin i v :
  rejoin r (spec_components r i v) = v /\ chained (spec_components r i v).
Proof.
  unfold spec_components, spec_split.
  destruct (configured (compDelim r)); [|simpl; auto].
  destruct (components_rejoin i
              (Strs.ByteSplitWithEsc v (b (compDelim r)) (b (releaseChar r)))
              0 ltac:(lia)) as (H1 & H2).
  split; trivial. rewrite H1. apply ByteSplitWithEsc_join.
Qed.

Lemma spec_components_head i v :
  exists e rest,
    spec_components r i v = e :: rest /\ ElemIndex e = i /\ CompIndex e = 1.
Proof.
  pose proof (spec_components_nonempty r i v) as N.
  unfold spec_components, spec_split in *.
  destruct (configured (compDelim r)); [|simpl; eauto].
  destruct (Strs.ByteSplitWithEsc v (b (compDelim r)) (b (releaseChar r)))
    as [|p ps]; [simpl in N; congruence|].
  simpl. eauto.
Qed.

Lemma exists_last_entry (l : list RawSegElem) i :
  l <> [] -> Forall (fun x => ElemIndex x = i) l ->
  exists l' e, l = l' ++ [e] /\ ElemIndex e = i.
Proof.
  intros N F. destruct (exists_last N) as (l' & e & ->).
  exists l', e. split; trivial.
  apply Forall_app in F as (_ & F). now inversion F.
Qed.

(** The repetitions of one element. *)
Lemma repetitions_rejoin i reps :
  let entries := flat_map (spec_components r i) reps in
  rejoin r entries = joinBytes (b (repDelim r)) reps /\ chained entries.
Proof.
  induction reps as [|v reps IH]; [simpl; auto|].
  cbv zeta in *. cbn [flat_map].
  destruct (spec_components_rejoin i v) as (Hv & Hcv).
  destruct reps as [|v' reps].
  - simpl. now rewrite app_nil_r.
  - destruct IH as (IHr & IHc).
    destruct (spec_components_head i v') as (e' & rest & He' & Hi' & Hc').
    cbn [flat_map] in *. rewrite He' in *.
    change ((e' :: rest) ++ flat_map (spec_components r i) reps)
      with (e' :: (rest ++ flat_map (spec_components r i) reps)) in *.
    destruct (exists_last_entry (spec_components r i v) i
                (spec_components_nonempty r i v) (spec_components_index r i v))
      as (l & e & El & Hi).
    rewrite El in *. split.
    + rewrite rejoin_snoc, Hv, IHr. unfold separator.
      rewrite Hi', Hi, Hc', Z.eqb_refl. reflexivity.
    + apply chained_snoc; trivial. left. rewrite Hi', Hi, Hc'. auto.
Qed.

Lemma element_rejoin i elem :
  let entries := flat_map (spec_components r i) (spec_repetitions r elem) in
  rejoin r entries = elem /\ chained entries.
Proof.
  destruct (repetitions_rejoin i (spec_repetitions r elem)) as (H1 & H2).
  cbv zeta in *. split; trivial. rewrite H1.
  unfold spec_repetitions, spec_split.
  destruct (configured (repDelim r)); [apply ByteSplitWithEsc_join | reflexivity].
Qed.

Lemma element_head i elem :
  exists e rest,
    flat_map (spec_components r i) (spec_repetitions r elem) = e :: rest
    /\ ElemIndex e = i /\ CompIndex e = 1.
Proof.
  pose proof (spec_repetitions_nonempty r elem) as N.
  destruct (spec_repetitions r elem) as [|v vs]; [congruence|].
  destruct (spec_components_head i v) as (e & rest & E & Hi & Hc).
  cbn [flat_map]. rewrite E. simpl. eauto.
Qed.

(** The elements of a token. *)
Lemma elements_rejoin pieces :
  forall i,
    let entries :=
      flat_map (fun ie => flat_map (spec_components r (fst ie))
                            (spec_repetitions r (snd ie)))
        (enumerate i pieces) in
    rejoin r entries = joinBytes (b (elemDelim r)) pieces /\ chained entries.
Proof.
  induction pieces as [|p pieces IH]; intros i; [simpl; auto|].
  cbv zeta in *. cbn [enumerate flat_map fst snd].
  destruct (element_rejoin i p) as (Hp & Hcp). cbv zeta in *.
  destruct pieces as [|q pieces].
  - simpl. now rewrite app_nil_r.
  - destruct (IH (i + 1)) as (IHr & IHc).
    destruct (element_head (i + 1) q) as (e' & rest & He' & Hi' & Hc').
    cbn [enumerate flat_map fst snd] in *. rewrite He' in *.
    match goal with
    | |- context [(e' :: rest) ++ ?t] =>
        change ((e' :: rest) ++ t) with (e' :: (rest ++ t)) in *
    end.
    destruct (exists_last_entry
                (flat_map (spec_components r i) (spec_repetitions r p)) i
                (element_entries_nonempty r i p) (element_entries_index r i p))
      as (l & e & El & Hi).
    rewrite El in *. split.
    + rewrite rejoin_snoc, Hp, IHr. unfold separator.
      rewrite Hi', Hi.
      replace (i + 1 =? i) with false by (symmetry; apply Z.eqb_neq; lia).
      reflexivity.
    + apply chained_snoc; trivial. right. rewrite Hi', Hi. auto.
Qed.

Lemma spec_elements_rejoin s :
  rejoin r (spec_elements r s) = s /\ chained (spec_elements r s).
Proof.
  unfold spec_elements.
  destruct (elements_rejoin (spec_split r s (elemDelim r)) 0) as (H1 & H2).
  split; trivial. rewrite H1. apply ByteSplitWithEsc_join.
Qed.

Lemma spec_components_comp_one i v :
  configured (compDelim r) = false ->
  Forall (fun x => CompIndex x = 1) (spec_components r i v).
Proof.
  unfold spec_components. intros ->. repeat constructor.
Qed.

Lemma spec_elements_comp_one s :
  configured (compDelim r) = false ->
  Forall (fun x => CompIndex x = 1) (spec_elements r s).
Proof.
  intros H. unfold spec_elements.
  apply Forall_flat_map, Forall_forall. intros ie _.
  apply Forall_flat_map, Forall_forall. intros v _.
  now apply spec_components_comp_one.
Qed.
End Rejoin.




(** X9.  The indices of the entries of a segment [Read] returns tell how
    they were cut: the first entry is (0, 1); each further entry is the
    next component of the same element (component index one more), or the
    first component of a further repetition of it (component index 1), or
    the first component of the next element (element index one more,
    component index 1).  Without a component delimiter every component
    index is 1. *)
Theorem entries_are_chained r seg r' out :
  Read r = (Returned (seg, None), r', out) ->
  (exists e rest,
      Elems seg = e :: rest /\ ElemIndex e = 0 /\ CompIndex e = 1)
  /\ chained (Elems seg)
  /\ (configured (compDelim r) = false ->
      Forall (fun x => CompIndex x = 1) (Elems seg)).
Proof.
  intros H.
  destruct (read_elements_spec _ _ _ _ H) as (token & noSegDelim & _ & _ & HE).
  apply Read_ok_inv in H as (tk & r1 & _ & _ & Ht & ->).
  apply readToken_ok_inv in Ht as (nsd & e & rest & _ & _ & _ & -> & _).
  cbn [Elems rawSeg with_rawSeg] in *. rewrite HE. split; [|split].
  - unfold spec_elements in *.
    destruct (spec_split r noSegDelim (elemDelim r)) as [|p ps];
      [discriminate|].
    cbn [enumerate flat_map fst snd].
    destruct (element_head r 0 p) as (x & xs & -> & Hi & Hc).
    simpl. eauto.
  - apply (proj2 (spec_elements_rejoin r noSegDelim)).
  - apply spec_elements_comp_one.
Qed.

Lemma entries_are_chained_witness :
  let r := NewNonValidatingReader false (bs "REF*A^B:1*Z~")
             (mkFileDecl "~" "*" (Some ":"%string) (Some "^"%string)
                None false) in
  let seg := rawSeg (snd (fst (Read r))) in
  Read r = (Returned (seg, None), snd (fst (Read r)), snd (Read r))
  /\ ((exists e rest,
          Elems seg = e :: rest /\ ElemIndex e = 0 /\ CompIndex e = 1)
      /\ chained (Elems seg)
      /\ (configured (compDelim r) = false ->
          Forall (fun x => CompIndex x = 1) (Elems seg))).
Proof.
  intros r seg. split; [vm_compute; reflexivity|].
  apply (entries_are_chained r seg (snd (fst (Read r))) (snd (Read r))).
  vm_compute. reflexivity.
Defined.

(** ** Segments without a name *)

Lemma segmentOf_missing_name r token noSegDelim :
  dropSegDelim r token = Returned noSegDelim ->
  (spec_elements r noSegDelim = []
   \/ exists e rest, spec_elements r noSegDelim = e :: rest /\ Data e = []) ->
  segmentOf r token
  = Returned (zeroRawSeg, Some (ErrInvalidEDI "missing segment name")).
Proof.
  intros D HE. unfold segmentOf.
  pose proof (readToken_cases r token) as C. cbv zeta in C.
  rewrite D in C. rewrite appendElems_spec, app_nil_l in C.
  destruct HE as [HE | (e & rest & HE & HD)]; rewrite HE in C;
    [|rewrite HD in C]; now rewrite C.
Qed.

Lemma ByteSplitWithEsc_empty delim esc :
  (length delim =? 0)%nat = false ->
  Strs.ByteSplitWithEsc [] delim esc = [[]].
Proof.
  intros H. unfold Strs.ByteSplitWithEsc. rewrite H.
  destruct delim; [discriminate|].
  destruct (length esc =? 0)%nat; reflexivity.
Qed.

Lemma HasPrefix_app (p rest : bytes) : Bytes.HasPrefix (p ++ rest) p = true.
Proof.
  unfold Bytes.HasPrefix. rewrite length_app.
  rewrite firstn_app_exact by reflexivity.
  rewrite bytes_eqb_refl, andb_true_r. apply Nat.leb_le. lia.
Qed.

(** A delimiter at the very start, not taken for the start of a release
    sequence, cuts an empty first piece. *)
Lemma ByteSplitWithEsc_leading_delim delim esc rest :
  (length delim =? 0)%nat = false ->
  esc = [] \/ Bytes.HasPrefix (delim ++ rest) esc = false ->
  exists ps, Strs.ByteSplitWithEsc (delim ++ rest) delim esc = [] :: ps.
Proof.
  intros Hd He. unfold Strs.ByteSplitWithEsc. rewrite Hd.
  assert (Hs : exists c s, delim ++ rest = c :: s)
    by (destruct delim; [discriminate | simpl; eauto]).
  destruct Hs as (c & s & Es).
  pose proof (HasPrefix_app delim rest) as P.
  assert (Hl : (length (delim ++ rest) <? length delim)%nat = false)
    by (apply Nat.ltb_ge; rewrite length_app; lia).
  destruct (length esc =? 0)%nat eqn:E; cbn [orb].
  - unfold Bytes.Split. destruct delim as [|d0 delim]; [discriminate|].
    rewrite Es in *. cbn [length Bytes.splitLoop].
    unfold Bytes.Index. cbn [Bytes.indexFrom]. rewrite P. simpl. eauto.
  - destruct He as [-> | He]; [discriminate|].
    rewrite Es in *. cbn [length Strs.splitWithEscLoop].
    unfold Strs.ByteIndexWithEsc. rewrite Hd, E. cbn [length Nat.eqb].
    cbn [Strs.indexWithEscFrom]. rewrite Hl, He, P. simpl. eauto.
Qed.

Lemma first_piece_empty r s ps :
  spec_split r s (elemDelim r) = [] :: ps ->
  exists e rest, spec_elements r s = e :: rest /\ Data e = [].
Proof.
  intros H. unfold spec_elements. rewrite H.
  cbn [enumerate flat_map fst snd].
  assert (E : flat_map (spec_components r 0) (spec_repetitions r [])
              = [mkRawSegElem 0 1 []]).
  { assert (R : spec_repetitions r [] = [[]]).
    { unfold spec_repetitions, spec_split, configured.
      destruct (length (b (repDelim r)) =? 0)%nat eqn:L; trivial.
      now apply ByteSplitWithEsc_empty. }
    rewrite R. cbn [flat_map]. rewrite app_nil_r.
    unfold spec_components, spec_split, configured.
    destruct (length (b (compDelim r)) =? 0)%nat eqn:L; trivial. simpl.
    now rewrite ByteSplitWithEsc_empty. }
  rewrite E. simpl. eauto.
Qed.

(** X10.  A token with nothing before its segment delimiter, or one that
    starts with the element delimiter (not taken for the start of a release
    sequence), has no name: [Read] fails with "missing segment name". *)
Theorem nameless_tokens_fail r token noSegDelim :
  processes r token ->
  dropSegDelim r token = Returned noSegDelim ->
  noSegDelim = []
  \/ (b (elemDelim r) <> []
      /\ (exists rest, noSegDelim = b (elemDelim r) ++ rest)
      /\ (b (releaseChar r) = []
          \/ Bytes.HasPrefix noSegDelim (b (releaseChar r)) = false)) ->
  fst (fst (Read r))
  = Returned (zeroRawSeg, Some (ErrInvalidEDI "missing segment name")).
Proof.
  intros (r1 & N & E) D H.
  rewrite (Read_result _ _ _ N E).
  apply (segmentOf_missing_name _ _ _ D).
  destruct (length (b (elemDelim r)) =? 0)%nat eqn:L.
  - apply Nat.eqb_eq in L.
    destruct (b (elemDelim r)) eqn:Eb; [|discriminate].
    destruct H as [-> | (Hne & _)]; [|congruence].
    left. unfold spec_elements, spec_split. rewrite Eb. reflexivity.
  - right. destruct H as [-> | (_ & (rest & ->) & Hrel)].
    + apply (first_piece_empty r [] []).
      unfold spec_split. now apply ByteSplitWithEsc_empty.
    + destruct (ByteSplitWithEsc_leading_delim _ (b (releaseChar r)) rest L Hrel)
        as (ps & Hps).
      now apply (first_piece_empty r _ ps).
Qed.

Lemma nameless_tokens_fail_witness :
  let r := NewNonValidatingReader false (bs "*A~")
             (mkFileDecl "~" "*" None None (Some "?"%string) false) in
  (processes r (bs "*A~")
   /\ dropSegDelim r (bs "*A~") = Returned (bs "*A")
   /\ (bs "*A" = []
       \/ (b (elemDelim r) <> []
           /\ (exists rest, bs "*A" = b (elemDelim r) ++ rest)
           /\ (b (releaseChar r) = []
               \/ Bytes.HasPrefix (bs "*A") (b (releaseChar r)) = false))))
  /\ fst (fst (Read r))
     = Returned (zeroRawSeg, Some (ErrInvalidEDI "missing segment name")).
Proof.
  intros r.
  assert (P : processes r (bs "*A~"))
    by (exists (snd (nextToken (S (Ios.pending (scanner r))) r));
        split; vm_compute; reflexivity).
  assert (D : dropSegDelim r (bs "*A~") = Returned (bs "*A")) by reflexivity.
  assert (H : bs "*A" = []
              \/ (b (elemDelim r) <> []
                  /\ (exists rest, bs "*A" = b (elemDelim r) ++ rest)
                  /\ (b (releaseChar r) = []
                      \/ Bytes.HasPrefix (bs "*A") (b (releaseChar r)) = false))).
  { right. split; [discriminate|]. split; [exists (bs "A"); reflexivity|].
    right. reflexivity. }
  split; [split; [exact P | split; [exact D | exact H]]|].
  apply (nameless_tokens_fail r (bs "*A~") (bs "*A") P D H).
Defined.

(** ** When the error of the stream is reported *)

Lemma nextToken_failure_origin fuel :
  forall r o r1,
    nextToken fuel r = (o, r1) ->
    Ios.failed (scanner r1) = true ->
    Ios.failed (scanner r) = true
    \/ forallb skips (Ios.toks (scanner r)) = true.
Proof.
  induction fuel as [|f IH]; intros r o r1; cbn [nextToken].
  - intros H; injection H as _ <-. auto.
  - unfold Ios.Scan.
    destruct (scanner r) as [tk io late fl] eqn:Sc;
      cbn [Ios.toks Ios.ioErr Ios.lateToks Ios.failed].
    destruct tk as [|t tk]; [intros _ _; right; reflexivity|].
    destruct (runeCountAndHasOnlyCRLF t) as [count only] eqn:RC.
    destruct only.
    + intros H Hf. apply IH in H; trivial.
      cbn [scanner with_runes with_scanner Ios.toks Ios.failed] in H.
      destruct H as [H|H]; [auto|]. right.
      cbn [forallb]. unfold skips at 1. now rewrite RC.
    + intros H; injection H as _ <-.
      cbn [scanner with_runes with_scanner Ios.failed]. auto.
Qed.

Lemma nextToken_reaches_failure fuel x :
  forall r o r1,
    (Ios.pending (scanner r) < fuel)%nat ->
    nextToken fuel r = (o, r1) ->
    Ios.ioErr (scanner r) = Some x ->
    forallb skips (Ios.toks (scanner r)) = true ->
    Ios.failed (scanner r1) = true.
Proof.
  induction fuel as [|f IH]; intros r o r1 Hf; [lia|]. simpl.
  destruct (Ios.Scan (scanner r)) as [[tok|] sc] eqn:S.
  - pose proof (Scan_pending _ _ _ S) as Hp.
    revert S. unfold Ios.Scan.
    destruct (scanner r) as [tk io late fl] eqn:Sc; simpl.
    destruct tk as [|t tk].
    + intros S H -> _.
      destruct late as [|y late]; [discriminate|]. injection S as <- <-.
      destruct (runeCountAndHasOnlyCRLF y) as [count [|]].
      * apply (nextToken_keeps_failure _ x) in H as (H & _); trivial.
      * injection H as _ <-. reflexivity.
    + intros S H Hio Hall. injection S as <- <-.
      simpl in Hall. apply andb_prop in Hall as (Ht & Hall).
      unfold skips in Ht.
      destruct (runeCountAndHasOnlyCRLF t) as [count only].
      simpl in Ht. subst only.
      apply IH in H; trivial. simpl in *. lia.
  - revert S. unfold Ios.Scan.
    destruct (scanner r) as [tk io late fl] eqn:Sc; simpl.
    destruct tk as [|t tk]; [|discriminate].
    intros S H -> _. destruct late; [|discriminate].
    injection S as <-. injection H as _ <-. reflexivity.
Qed.

(** X11.  [Read] reports the error [x] of the stream, as
    [ErrInvalidEDI "cannot read segment, err: x"], exactly when the scanner
    has recorded it already or records it during the call, that is when
    every token cut before the error is one the scanning loop skips; a
    token cut after the error is never returned. *)
Theorem read_reports_stream_error_iff r x :
  fst (fst (Read r))
  = Returned (zeroRawSeg,
              Some (ErrInvalidEDI ("cannot read segment, err: " ++ x)%string))
  <-> Ios.ioErr (scanner r) = Some x
      /\ (Ios.failed (scanner r) = true
          \/ forallb skips (Ios.toks (scanner r)) = true).
Proof.
  destruct (nextToken (S (Ios.pending (scanner r))) r) as [o r1] eqn:N.
  pose proof (nextToken_scan _ _ _ _ (Nat.lt_succ_diag_r _) N) as (Hio & _).
  split.
  - rewrite Read_unfold, N. simpl.
    destruct (Ios.Err (scanner r1)) as [y|] eqn:E.
    + intros H. simpl in H. injection H as ->.
      unfold Ios.Err in E.
      destruct (Ios.failed (scanner r1)) eqn:F; [|discriminate].
      split; [congruence|].
      now apply (nextToken_failure_origin _ _ _ _ N).
    + destruct o as [t|]; [|discriminate].
      destruct (readToken _ t) as [[[[e|]|] r3] out] eqn:T; try discriminate.
      apply readToken_error in T as (-> & _). discriminate.
  - intros (He & [Hf|Hall]); [now apply Read_failed|].
    pose proof (nextToken_reaches_failure _ x _ _ _ (Nat.lt_succ_diag_r _)
                  N He Hall) as F.
    rewrite Read_unfold, N. simpl.
    unfold Ios.Err. rewrite F, Hio, He. reflexivity.
Qed.
